(** * fvalues: strings that remember their f-string parts

    A shallow embedding of [fvalues/f.py] (class [F], dataclass [FValue])
    and the properties of construction, flattening, trimming and
    concatenation stated for it.

    Python strings are modelled by [string], so their characters are the
    256 code points of [ascii].  What the module takes from elsewhere
    ([ast.unparse], [eval], [executing], the frame) enters as the
    variables of a section; the built-in [str.lstrip] and [str.rstrip]
    are written out. *)

From Stdlib Require Import String Ascii List Bool Arith ZArith Lia.
Import ListNotations.
Open Scope string_scope.

Set Implicit Arguments.

(** ** Python values *)

(** [str] instances are either exact strings ([Str]) or instances of the
    subclass [F] ([FStr]: the provenance string, with its [parts] tuple).
    [Part = str | FValue]: a literal part is a [str], which may itself be
    an [F]; [PFValue] is the dataclass [FValue], whose [formatted] is a
    [str] (an [F] when [_parts_from_node] stores an operand in it) and
    whose [value] is [Any]: a string, or another object, kept through its
    [repr]. *)
Inductive pystr : Type :=
| Str (s : string)
| FStr (s : string) (parts : list part)
with part : Type :=
| PStr (s : pystr)
| PFValue (source : string) (value : pyval) (formatted : pystr)
with pyval : Type :=
| VStr (s : pystr)
| VOther (repr : string).

(** Induction on a string together with the strings nested in its
    parts. *)
Section PystrInd.
Variable P : pystr -> Prop.

Definition part_holds (p : part) : Prop :=
  match p with
  | PStr s => P s
  | PFValue _ value formatted =>
      match value with
      | VStr v => P v
      | VOther _ => True
      end /\ P formatted
  end.

Hypothesis P_Str : forall t, P (Str t).
Hypothesis P_FStr : forall t ps, Forall part_holds ps -> P (FStr t ps).

Fixpoint pystr_nested_ind (s : pystr) : P s :=
  match s with
  | Str t => P_Str t
  | FStr t ps =>
      P_FStr t
        ((fix all (l : list part) : Forall part_holds l :=
            match l with
            | [] => Forall_nil _
            | p :: l' =>
                Forall_cons p
                  (match p return part_holds p with
                   | PStr s' => pystr_nested_ind s'
                   | PFValue _ value formatted =>
                       conj
                         (match value
                                return match value with
                                       | VStr v => P v
                                       | VOther _ => True
                                       end
                          with
                          | VStr v => pystr_nested_ind v
                          | VOther _ => I
                          end)
                         (pystr_nested_ind formatted)
                   end)
                  (all l')
            end) ps)
  end.
End PystrInd.

(** Exceptions raised by the code or by the evaluator. *)
Inductive exn : Type :=
| AssertionError
| TypeError (msg : string)
| ValueError
| IndexError
| AttributeError
| EvalError (msg : string).

Inductive res (A : Type) : Type :=
| Ok (a : A)
| Raise (e : exn).
Arguments Ok {A} a.
Arguments Raise {A} e.

Definition res_bind {A B} (r : res A) (k : A -> res B) : res B :=
  match r with
  | Ok a => k a
  | Raise e => Raise e
  end.

(** [str(x)] for a [str] instance. *)
Definition text (s : pystr) : string :=
  match s with
  | Str t => t
  | FStr t _ => t
  end.

(** The [parts] attribute (only [F] instances have one). *)
Definition parts_of (s : pystr) : list part :=
  match s with
  | Str _ => []
  | FStr _ ps => ps
  end.

Definition is_F (s : pystr) : bool :=
  match s with
  | Str _ => false
  | FStr _ _ => true
  end.

(** [part.formatted if isinstance(part, FValue) else part] *)
Definition shown (p : part) : string :=
  match p with
  | PFValue _ _ formatted => text formatted
  | PStr s => text s
  end.

(** ["".join(... for part in parts)] *)
Fixpoint join (parts : list part) : string :=
  match parts with
  | [] => ""
  | p :: rest => shown p ++ join rest
  end.

(** Truth value of a string: non-empty. *)
Definition truthy (s : pystr) : bool :=
  match text s with
  | EmptyString => false
  | String _ _ => true
  end.

(** ** [F.__new__] with explicit parts *)

(** The branch [parts is not None] of [F.__new__]: the assertion, then the
    new instance. *)
Definition F_with_parts (s : pystr) (parts : list part) : res pystr :=
  let expected := join parts in
  if String.eqb (text s) expected then Ok (FStr (text s) parts)
  else Raise AssertionError.

(** ** [F.flatten] *)

Section FlattenLoop.
Variable flatten_rec : pystr -> res pystr.

(** The [for part in self.parts] loop, [acc] being the list [parts]
    built so far. *)
Fixpoint flatten_loop (ps : list part) (acc : list part) : res (list part) :=
  match ps with
  | [] => Ok acc
  | p :: rest =>
      match p with
      | PFValue _ (VStr (FStr _ _ as v)) _ =>
          res_bind (flatten_rec v)
                   (fun r => flatten_loop rest (acc ++ parts_of r))
      | PStr (FStr _ _ as f) =>
          res_bind (flatten_rec f)
                   (fun r => flatten_loop rest (acc ++ parts_of r))
      | _ => flatten_loop rest (acc ++ [p])
      end
  end.
End FlattenLoop.

(** [flatten] is a method of [F]; an exact [str] has none. *)
Fixpoint flatten (self : pystr) : res pystr :=
  match self with
  | Str _ => Raise AttributeError
  | FStr t parts =>
      res_bind (flatten_loop flatten parts [])
               (fun ps => F_with_parts (Str t) ps)
  end.

(** ** The built-in [str.lstrip] and [str.rstrip] *)

(** Python's [str.isspace] on the characters a [string] can hold. *)
Definition py_isspace (c : ascii) : bool :=
  let n := nat_of_ascii c in
  (((9 <=? n) && (n <=? 13)) || ((28 <=? n) && (n <=? 32))
   || (n =? 133) || (n =? 160))%nat.

Fixpoint mem_char (c : ascii) (chars : string) : bool :=
  match chars with
  | EmptyString => false
  | String d rest => Ascii.eqb c d || mem_char c rest
  end.

(** The optional [chars] argument (absent, [None] or a string): which
    characters are removed. *)
Definition trimmable (chars : option string) (c : ascii) : bool :=
  match chars with
  | None => py_isspace c
  | Some cs => mem_char c cs
  end.

Fixpoint str_lstrip (chars : option string) (s : string) : string :=
  match s with
  | EmptyString => EmptyString
  | String c rest => if trimmable chars c then str_lstrip chars rest else s
  end.

Fixpoint str_rstrip (chars : option string) (s : string) : string :=
  match s with
  | EmptyString => EmptyString
  | String c rest =>
      match str_rstrip chars rest with
      | EmptyString => if trimmable chars c then EmptyString
                       else String c EmptyString
      | kept => String c kept
      end
  end.

(** [str.strip]: leading characters are dropped first, trailing ones are
    then dropped from what is left. *)
Definition str_strip (chars : option string) (s : string) : string :=
  str_rstrip chars (str_lstrip chars s).

(** ** [F._strip] *)

(** [_strip] is called with [(0, "lstrip")] or [(-1, "rstrip")]. *)
Inductive side : Type :=
| Leading    (* index 0, method "lstrip" *)
| Trailing.  (* index -1, method "rstrip" *)

Definition builtin_strip (sd : side) (chars : option string) (s : string)
  : string :=
  match sd with
  | Leading => str_lstrip chars s
  | Trailing => str_rstrip chars s
  end.

(** How the [while True] loop ends. *)
Inductive scan_end : Type :=
| Found (parts : list part)   (* [break] with the rewritten list *)
| Exhausted                   (* [parts[index]] on an empty list *)
| Raised (e : exn).           (* the part's own method raised *)

Section StripLoop.
(** The bound method [getattr(s, method)] applied to the arguments. *)
Variable method : pystr -> res pystr.

(** One iteration on the boundary part: [Some] is the rewritten part
    (then [break]), [None] means [del parts[index]]. *)
Definition strip_part (p : part) : res (option part) :=
  let s := match p with
           | PFValue _ _ formatted => formatted
           | PStr s => s
           end in
  res_bind (method s) (fun s' =>
    if truthy s' then
      Ok (Some (match p with
                | PFValue source value _ => PFValue source value s'
                | PStr _ => PStr s'
                end))
    else Ok None).

(** The loop at index 0.  The number is the count of iterations begun,
    the one that fails on [parts[0]] included. *)
Fixpoint scan_first (ps : list part) : nat * scan_end :=
  match ps with
  | [] => (1, Exhausted)
  | p :: rest =>
      match strip_part p with
      | Raise e => (1, Raised e)
      | Ok (Some p') => (1, Found (p' :: rest))
      | Ok None => let (n, o) := scan_first rest in (S n, o)
      end
  end.

(** The loop at index -1: the parts after [p] are visited first, and
    [p] is the boundary part only once all of them are deleted. *)
Fixpoint scan_last (ps : list part) : nat * scan_end :=
  match ps with
  | [] => (1, Exhausted)
  | p :: rest =>
      match scan_last rest with
      | (n, Found rest') => (n, Found (p :: rest'))
      | (n, Raised e) => (n, Raised e)
      | (n, Exhausted) =>
          match strip_part p with
          | Raise e => (n, Raised e)
          | Ok (Some p') => (n, Found [p'])
          | Ok None => (S n, Exhausted)
          end
      end
  end.

Definition scan (sd : side) (ps : list part) : nat * scan_end :=
  match sd with
  | Leading => scan_first ps
  | Trailing => scan_last ps
  end.
End StripLoop.

(** [getattr(s, method)] applied to the arguments, on a [str] instance:
    the built-in for an exact [str], [F._strip] (through [F.lstrip] or
    [F.rstrip]) for an [F]. *)
Fixpoint str_method (sd : side) (chars : option string) (s : pystr)
  : res pystr :=
  match s with
  | Str t => Ok (Str (builtin_strip sd chars t))
  | FStr t parts =>
      match snd (scan (str_method sd chars) sd parts) with
      | Exhausted => Raise IndexError
      | Raised e => Raise e
      | Found parts' => F_with_parts (Str (builtin_strip sd chars t)) parts'
      end
  end.

Definition _strip (sd : side) (chars : option string) (self : pystr)
  : res pystr :=
  str_method sd chars self.

Definition lstrip (chars : option string) (self : pystr) : res pystr :=
  _strip Leading chars self.

Definition rstrip (chars : option string) (self : pystr) : res pystr :=
  _strip Trailing chars self.

Definition strip (chars : option string) (self : pystr) : res pystr :=
  res_bind (lstrip chars self) (rstrip chars).

(** ** Syntax nodes *)

Inductive constant : Type :=
| CStr (s : string)
| COther (repr : string).   (* a number, [None], bytes, ... *)

Inductive operator : Type :=
| Add
| OtherOp (name : string).

(** The nodes of [ast] the code tells apart; every other node is a [Name]
    or an [OtherNode]. *)
#[warnings="-register-all"]
Inductive node : Type :=
| Constant (value : constant)
| JoinedStr (values : list node)
| FormattedValue (value : node) (conversion : Z) (format_spec : option node)
| Call (func : node) (args : list node)
| BinOp (left : node) (op : operator) (right : node)
| AugAssign (target : node) (op : operator) (value : node)
| Name (id : string)
| OtherNode (descr : string).

(** Modelled from the spec: the warning class [NoSourceAvailableWarning],
    which the spec and the tests name and [f.py] neither defines nor
    passes.  [UserWarning] is the category [warnings.warn] gives a warning
    issued with a message only. *)
Inductive category : Type :=
| UserWarning
| NoSourceAvailableWarning.

(** [warnings.warn(message, category)] *)
Inductive warning : Type :=
| Warn (cat : category) (message : string).

Definition has_category (c : category) (w : warning) : bool :=
  match c, w with
  | UserWarning, Warn UserWarning _ => true
  | NoSourceAvailableWarning, Warn NoSourceAvailableWarning _ => true
  | _, _ => false
  end.

(** ** Construction from the call site, decomposition, concatenation *)

Section CallSite.
(** A frame with its globals and locals; evaluating in it may change
    them, so evaluation returns the frame it leaves. *)
Variable Frame : Type.
(** [ast.unparse] *)
Variable unparse : node -> string.
(** [eval(source, frame.f_globals, frame.f_locals)] *)
Variable eval_source : string -> Frame -> res pyval * Frame.
(** [eval(compile(ast.Expression(node), "<ast>", "eval"), frame.f_globals,
    frame.f_locals)] for a [JoinedStr] node: a string *)
Variable eval_code : node -> Frame -> res string * Frame.
(** [executing.Source.executing(frame).node] *)
Variable executing_node : Frame -> option node.

(** Computations that read and update the frame and may raise. *)
Definition M (A : Type) : Type := Frame -> res A * Frame.

Definition ret {A} (a : A) : M A := fun fr => (Ok a, fr).

Definition raise {A} (e : exn) : M A := fun fr => (Raise e, fr).

Definition bind {A B} (m : M A) (k : A -> M B) : M B :=
  fun fr =>
    match m fr with
    | (Ok a, fr') => k a fr'
    | (Raise e, fr') => (Raise e, fr')
    end.

Definition lift {A} (r : res A) : M A := fun fr => (r, fr).

Section JoinedLoop.
Variable decompose : node -> M (list part).

(** [for node in node.values: parts.extend(...)] *)
Fixpoint joined_loop (values : list node) (parts : list part)
  : M (list part) :=
  match values with
  | [] => ret parts
  | v :: rest =>
      bind (decompose v) (fun ps => joined_loop rest (parts ++ ps))
  end.
End JoinedLoop.

Fixpoint _parts_from_node (n : node) (value : option pystr)
  : M (list part) :=
  match n with
  | Constant c =>
      match c with
      | CStr s => ret [PStr (Str s)]
      | COther _ => raise AssertionError
      end
  | JoinedStr values =>
      joined_loop (fun v => _parts_from_node v None) values []
  | FormattedValue v _ _ =>
      let source := unparse v in
      bind (eval_source source) (fun value =>
      bind (eval_code (JoinedStr [n])) (fun formatted =>
      ret [PFValue source value (Str formatted)]))
  | _ =>
      match value with
      | Some s => ret [PFValue (unparse n) (VStr s) s]
      | None => raise AssertionError
      end
  end.

(** [F.__new__(cls, s, parts=None)], called from [frame]: the result, the
    frame afterwards and the warnings issued. *)
Definition F_new (s : pystr) (parts : option (list part)) (frame : Frame)
  : res pystr * Frame * list warning :=
  match parts with
  | Some ps => (F_with_parts s ps, frame, [])
  | None =>
      match executing_node frame with
      | None =>
          (F_with_parts s [PStr s], frame,
           [Warn UserWarning "Couldn't get source node of F() call"])
      | Some (Call _ args) =>
          match args with
          | [arg] =>
              let (r, frame') := _parts_from_node arg (Some s) frame in
              (res_bind r (F_with_parts s), frame', [])
          | _ => (Raise ValueError, frame, [])
          end
      | Some _ =>
          (Raise (TypeError "F must be called directly, nothing fancy"),
           frame, [])
      end
  end.

(** [F._add(self, other, is_left)] for a [str] operand [other]; [frame]
    is the frame of the caller of [__add__] / [__radd__]. *)
Definition _add (self other : pystr) (is_left : bool) : M pystr :=
  fun frame =>
  let parts := if is_left then (self, other) else (other, self) in
  let value := text (fst parts) ++ text (snd parts) in
  let precise left_node right_node :=
    bind (_parts_from_node left_node (Some (fst parts))) (fun left_parts =>
    bind (_parts_from_node right_node (Some (snd parts))) (fun right_parts =>
    lift (F_with_parts (Str value) (left_parts ++ right_parts)))) in
  match executing_node frame with
  | Some (BinOp left_node Add right_node) =>
      precise left_node right_node frame
  | Some (AugAssign target Add value_node) =>
      precise target value_node frame
  | _ =>
      (F_with_parts (Str value) [PStr (fst parts); PStr (snd parts)], frame)
  end.


End CallSite.

(** ** Predicates used in the statements *)

(** Invariant I1 on a value an operation returned: it is an [F] and its
    text is the join of its parts. *)
Definition reconstructs (r : pystr) : Prop :=
  is_F r = true /\ join (parts_of r) = text r.

(** The boundary part [p] was trimmed to [p'] and something is left: the
    shown text is the trimmed one, and an [FValue] keeps its [source] and
    [value]. *)
Definition partially_trimmed (sd : side) (chars : option string)
  (p p' : part) : Prop :=
  shown p' = builtin_strip sd chars (shown p) /\ shown p' <> "" /\
  match p with
  | PFValue source value _ =>
      exists formatted', p' = PFValue source value formatted'
  | PStr _ => exists s', p' = PStr s'
  end.

(** Nothing of the part is left by the trim. *)
Definition trimmed_away (sd : side) (chars : option string) (p : part)
  : Prop :=
  builtin_strip sd chars (shown p) = "".

(** The end of a scan run on the reversed list, read back in the order
    of the original list. *)
Definition reversed_end (o : scan_end) : scan_end :=
  match o with
  | Found ps => Found (rev ps)
  | Exhausted => Exhausted
  | Raised e => Raised e
  end.

(** The part shows an exact [str], not an [F]. *)
Definition plain_part (p : part) : Prop :=
  match p with
  | PStr (Str _) | PFValue _ _ (Str _) => True
  | _ => False
  end.

(** The part is an [F], or an [FValue] whose value is an [F]: what
    [flatten] replaces. *)
Definition nests (p : part) : bool :=
  match p with
  | PFValue _ (VStr (FStr _ _)) _ => true
  | PStr (FStr _ _) => true
  | _ => false
  end.

Definition flat (ps : list part) : Prop :=
  Forall (fun p => nests p = false) ps.

(** I1 holds for the string and for every [F] that [flatten] visits in
    it, and an [FValue] whose value is an [F] shows the text of that
    value. *)
Fixpoint well_nested (x : pystr) : bool :=
  match x with
  | Str _ => true
  | FStr t ps =>
      String.eqb t (join ps)
      && forallb (fun p =>
                    match p with
                    | PFValue _ (VStr (FStr _ _ as v)) formatted =>
                        String.eqb (text formatted) (text v) && well_nested v
                    | PStr (FStr _ _ as f) => well_nested f
                    | _ => true
                    end) ps
  end.

(** The operand nodes of the addition or add-and-assign node, when the
    frame is executing one. *)
Definition addition_operands (n : option node) : option (node * node) :=
  match n with
  | Some (BinOp left_node Add right_node) => Some (left_node, right_node)
  | Some (AugAssign target Add value_node) => Some (target, value_node)
  | _ => None
  end.

(** The operands in the order of the addition: [self] is the left one
    for [__add__], the right one for [__radd__]. *)
Definition left_operand (self other : pystr) (is_left : bool) : pystr :=
  if is_left then self else other.

Definition right_operand (self other : pystr) (is_left : bool) : pystr :=
  if is_left then other else self.


(** Nodes that are no string constant, f-string or embedded expression:
    the last branch of [_parts_from_node]. *)
Definition other_expression (n : node) : bool :=
  match n with
  | Constant _ | JoinedStr _ | FormattedValue _ _ _ => false
  | _ => true
  end.

(** ** Sample values *)

Module Sample.
(** [space = " "; s = F(f" {space} hello {space} ")] *)
Definition space : part := PFValue "space" (VStr (Str " ")) (Str " ").

Definition padded_hello : pystr :=
  FStr "   hello   "
    [PStr (Str " "); space; PStr (Str " hello "); space; PStr (Str " ")].

(** [F(f"a{''}b")] *)
Definition a_empty_b : pystr :=
  FStr "ab" [PStr (Str "a"); PFValue "''" (VStr (Str "")) (Str "");
             PStr (Str "b")].

(** [F(f"{' a'}b ")] *)
Definition quoted_a_b : pystr :=
  FStr " ab " [PFValue "' a'" (VStr (Str " a")) (Str " a"); PStr (Str "b ")].

(** [F(" ")] *)
Definition blank : pystr := FStr " " [PStr (Str " ")].

(** [F(" ") + "a"]: the left operand is kept whole, as [value] and as
    [formatted]. *)
Definition blank_plus_a : pystr :=
  FStr " a" [PFValue "F(' ')" (VStr blank) blank; PStr (Str "a")].

(** [x = F("hi"); F(f"{x:>5}")] *)
Definition hi : pystr := FStr "hi" [PStr (Str "hi")].

Definition padded_hi : pystr :=
  FStr "   hi" [PFValue "x" (VStr hi) (Str "   hi")].

(** [s = "hello " + F("world"); s += "!"], the parts as the code
    builds them with [ast.unparse]. *)
Definition hello_world : pystr :=
  FStr "hello world"
    [PStr (Str "hello ");
     PFValue "F('world')" (VStr (FStr "world" [PStr (Str "world")]))
             (FStr "world" [PStr (Str "world")])].

Definition hello_world_bang : pystr :=
  FStr "hello world!"
    [PFValue "s" (VStr hello_world) hello_world; PStr (Str "!")].
End Sample.

(** ** A sample call site *)

Module Demo.
Fixpoint commas (items : list string) : string :=
  match items with
  | [] => ""
  | [item] => item
  | item :: rest => item ++ ", " ++ commas rest
  end.

(** What [ast.unparse] prints for names, constants, calls and binary
    operations whose operands are such atoms. *)
Fixpoint unparse (n : node) : string :=
  match n with
  | Name id => id
  | Constant (CStr s) => "'" ++ s ++ "'"
  | Constant (COther repr) => repr
  | Call func args => unparse func ++ "(" ++ commas (map unparse args) ++ ")"
  | BinOp left_node Add right_node =>
      unparse left_node ++ " + " ++ unparse right_node
  | BinOp left_node (OtherOp name) right_node =>
      unparse left_node ++ " " ++ name ++ " " ++ unparse right_node
  | OtherNode descr => descr
  | _ => ""
  end.

(** The frame counts the evaluations made in it; [values source k] is
    what [source] evaluates to when [k] evaluations came before (the
    same at every [k] for an expression without side effects). *)
Definition Frame : Type := nat.

Definition eval_source (values : string -> nat -> res pyval)
  (source : string) (fr : Frame) : res pyval * Frame :=
  (values source fr, S fr).

(** An f-string [f"{v}"] without conversion or format specifier. *)
Definition eval_code (values : string -> nat -> res pyval)
  (n : node) (fr : Frame) : res string * Frame :=
  match n with
  | JoinedStr [FormattedValue v _ None] =>
      (match values (unparse v) fr with
       | Ok (VStr s) => Ok (text s)
       | Ok (VOther repr) => Ok repr
       | Raise e => Raise e
       end, S fr)
  | _ => (Raise (EvalError "not an f-string of the samples"), fr)
  end.

Definition no_values (source : string) (k : nat) : res pyval :=
  Raise (EvalError "NameError").

(** [F(f"hello {(1) + 2}")]: the parentheses are not in the tree. *)
Definition hello_sum : node :=
  JoinedStr
    [Constant (CStr "hello ");
     FormattedValue (BinOp (Constant (COther "1")) Add
                           (Constant (COther "2"))) (-1) None].

Definition sum_values (source : string) (k : nat) : res pyval :=
  if String.eqb source "1 + 2" then Ok (VOther "3")
  else Raise (EvalError "NameError").




(** The node of [F(" ") + "a"] *)
Definition blank_plus_a : node :=
  BinOp (Call (Name "F") [Constant (CStr " ")]) Add (Constant (CStr "a")).

Definition x : pystr := FStr "x" [PStr (Str "x")].

End Demo.

(** ** [F.__deepcopy__] *)

Section DeepcopyParts.
(** [copy.deepcopy] on a [str] instance and on any other object. *)
Variable copy_str : pystr -> res pystr.
Variable copy_other : string -> res string.

(** A literal part is copied as a string; an [FValue] is rebuilt from the
    copies of its fields ([source] is an exact [str], which is its own
    copy). *)
Definition deepcopy_part (p : part) : res part :=
  match p with
  | PStr s => res_bind (copy_str s) (fun s' => Ok (PStr s'))
  | PFValue source value formatted =>
      res_bind
        (match value with
         | VStr v => res_bind (copy_str v) (fun v' => Ok (VStr v'))
         | VOther o => res_bind (copy_other o) (fun o' => Ok (VOther o'))
         end)
        (fun value' =>
           res_bind (copy_str formatted)
                    (fun formatted' =>
                       Ok (PFValue source value' formatted')))
  end.

(** [deepcopy] of the tuple [self.parts], element by element. *)
Fixpoint deepcopy_tuple (ps : list part) : res (list part) :=
  match ps with
  | [] => Ok []
  | p :: rest =>
      res_bind (deepcopy_part p)
               (fun p' =>
                  res_bind (deepcopy_tuple rest)
                           (fun rest' => Ok (p' :: rest')))
  end.
End DeepcopyParts.

(** [copy.deepcopy] on a [str] instance: an exact [str] is its own copy,
    an [F] is copied by [F.__deepcopy__], that is
    [F(str(self), deepcopy(self.parts, memodict))]. *)
Fixpoint deepcopy (copy_other : string -> res string) (s : pystr)
  : res pystr :=
  match s with
  | Str t => Ok (Str t)
  | FStr t parts =>
      res_bind (deepcopy_tuple (deepcopy copy_other) copy_other parts)
               (fun parts' => F_with_parts (Str t) parts')
  end.

Definition __deepcopy__ (copy_other : string -> res string) (self : pystr)
  : res pystr :=
  deepcopy copy_other self.

(** ** Strings that are well formed at every depth *)

(** I1 for the string and for every [F] inside its parts: the parts that
    are strings, the [formatted] and the [value] of the [FValue] parts. *)
Fixpoint deep_reconstructs (x : pystr) : bool :=
  match x with
  | Str _ => true
  | FStr t ps =>
      String.eqb t (join ps)
      && forallb (fun p =>
                    match p with
                    | PStr s => deep_reconstructs s
                    | PFValue _ value formatted =>
                        match value with
                        | VStr v => deep_reconstructs v
                        | VOther _ => true
                        end && deep_reconstructs formatted
                    end) ps
  end.

Definition deep_value (v : pyval) : bool :=
  match v with
  | VStr s => deep_reconstructs s
  | VOther _ => true
  end.

Definition deep_part (p : part) : bool :=
  match p with
  | PStr s => deep_reconstructs s
  | PFValue _ value formatted => deep_value value && deep_reconstructs formatted
  end.

(** [copy] returns its argument when the argument is [good], and raises
    the constructor's [AssertionError] when it is not. *)
Definition faithful_copy {A : Type} (copy : A -> res A) (good : A -> bool)
  (a : A) : Prop :=
  (good a = true -> copy a = Ok a) /\
  (forall r, copy a = Ok r -> r = a /\ good a = true) /\
  (forall e, copy a = Raise e -> e = AssertionError).

(** The parts an operand of a concatenation contributes once flattened:
    an [F] its flattened parts, an exact [str] itself. *)
Definition flattened_operand (s : pystr) : res (list part) :=
  match s with
  | Str _ => Ok [PStr s]
  | FStr _ _ => res_bind (flatten s) (fun r => Ok (parts_of r))
  end.

(** ** Nodes of f-strings *)

Definition is_joined (n : node) : bool :=
  match n with
  | JoinedStr _ => true
  | _ => false
  end.

(** Induction on a node together with the children of the f-strings in
    it. *)
Section NodeInd.
Variable P : node -> Prop.
Hypothesis P_joined : forall values, Forall P values -> P (JoinedStr values).
Hypothesis P_other : forall n, is_joined n = false -> P n.

Fixpoint node_joined_ind (n : node) : P n :=
  match n with
  | JoinedStr values =>
      P_joined
        ((fix all (l : list node) : Forall P l :=
            match l with
            | [] => Forall_nil _
            | v :: l' => Forall_cons v (node_joined_ind v) (all l')
            end) values)
  | Constant c => P_other (Constant c) eq_refl
  | FormattedValue v conversion format_spec =>
      P_other (FormattedValue v conversion format_spec) eq_refl
  | Call func args => P_other (Call func args) eq_refl
  | BinOp left_node op right_node =>
      P_other (BinOp left_node op right_node) eq_refl
  | AugAssign target op value_node =>
      P_other (AugAssign target op value_node) eq_refl
  | Name id => P_other (Name id) eq_refl
  | OtherNode descr => P_other (OtherNode descr) eq_refl
  end.
End NodeInd.

(** The children an f-string has in a parsed program: string constants
    and embedded expressions. *)
Definition fstring_child (n : node) : bool :=
  match n with
  | Constant (CStr _) | FormattedValue _ _ _ => true
  | _ => false
  end.

(** Nodes that [_parts_from_node] rejects when it is given no value. *)
Definition needs_value (n : node) : bool :=
  match n with
  | Constant (CStr _) | JoinedStr _ | FormattedValue _ _ _ => false
  | _ => true
  end.

(** The values the evaluator returns are well formed at every depth (as
    the strings a running program holds are). *)
Definition sound_values {Frame : Type}
  (eval_source : string -> Frame -> res pyval * Frame) : Prop :=
  forall source fr v fr',
    eval_source source fr = (Ok v, fr') -> deep_value v = true.

(** ** More sample values *)

Module Sample2.
(** [s = eval('F(f"hello {1 + 2}")'); s2 = F(f"{s}!")]: the [formatted]
    of the embedded [s] is the exact string the f-string renders. *)
Definition hello_3 : pystr := FStr "hello 3" [PStr (Str "hello 3")].

Definition hello_3_bang : pystr :=
  FStr "hello 3!" [PFValue "s" (VStr hello_3) (Str "hello 3"); PStr (Str "!")].

(** [s + s2] *)
Definition s_plus_s2 : node := BinOp (Name "s") Add (Name "s2").

(** ["hello " + F("world")] *)
Definition world : pystr := FStr "world" [PStr (Str "world")].

Definition hello_plus_F_world : node :=
  BinOp (Constant (CStr "hello ")) Add
        (Call (Name "F") [Constant (CStr "world")]).
End Sample2.

(** * Properties *)

(** ** Strings and joins *)

Lemma append_nil_r (s : string) : s ++ "" = s.
Proof. induction s as [|c s IH]; simpl; [reflexivity | now rewrite IH]. Qed.

Lemma append_assoc (a b c : string) : (a ++ b) ++ c = a ++ (b ++ c).
Proof. induction a as [|x a IH]; simpl; [reflexivity | now rewrite IH]. Qed.

Lemma append_empty (a b : string) : a ++ b = "" -> a = "" /\ b = "".
Proof. destruct a; simpl; [auto | discriminate]. Qed.

Lemma join_app (a b : list part) : join (a ++ b) = join a ++ join b.
Proof.
  induction a as [|p a IH]; simpl; [reflexivity |].
  now rewrite IH, append_assoc.
Qed.

Lemma truthy_true (s : pystr) : truthy s = true <-> text s <> "".
Proof.
  unfold truthy; destruct (text s); split; intro H;
    try discriminate; try reflexivity; now contradiction H.
Qed.

Lemma truthy_false (s : pystr) : truthy s = false <-> text s = "".
Proof.
  unfold truthy; destruct (text s); split; intro H;
    try discriminate; reflexivity.
Qed.

(** ** The constructor's assertion *)

Lemma F_with_parts_ok (s : pystr) (ps : list part) (r : pystr) :
  F_with_parts s ps = Ok r -> r = FStr (text s) ps /\ text s = join ps.
Proof.
  unfold F_with_parts.
  destruct (String.eqb_spec (text s) (join ps)) as [E|E]; intro H;
    inversion H; auto.
Qed.

Lemma F_with_parts_eq (s : pystr) (ps : list part) :
  text s = join ps -> F_with_parts s ps = Ok (FStr (text s) ps).
Proof.
  intro E; unfold F_with_parts.
  now destruct (String.eqb_spec (text s) (join ps)).
Qed.

Lemma F_with_parts_neq (s : pystr) (ps : list part) :
  text s <> join ps -> F_with_parts s ps = Raise AssertionError.
Proof.
  intro E; unfold F_with_parts.
  now destruct (String.eqb_spec (text s) (join ps)).
Qed.

Lemma F_with_parts_reconstructs (s : pystr) (ps : list part) (r : pystr) :
  F_with_parts s ps = Ok r -> reconstructs r.
Proof.
  intro H; apply F_with_parts_ok in H as [-> E].
  split; simpl; auto.
Qed.

(** ** Trimming a concatenation *)

Lemma str_lstrip_app (chars : option string) (a b : string) :
  str_lstrip chars (a ++ b) =
  match str_lstrip chars a with
  | EmptyString => str_lstrip chars b
  | String _ _ => str_lstrip chars a ++ b
  end.
Proof.
  induction a as [|c a IH]; simpl.
  - reflexivity.
  - destruct (trimmable chars c); [exact IH | reflexivity].
Qed.

Lemma str_rstrip_app (chars : option string) (a b : string) :
  str_rstrip chars (a ++ b) =
  match str_rstrip chars b with
  | EmptyString => str_rstrip chars a
  | String _ _ => a ++ str_rstrip chars b
  end.
Proof.
  induction a as [|c a IH]; simpl.
  - now destruct (str_rstrip chars b).
  - rewrite IH. destruct (str_rstrip chars b) as [|k ks].
    + reflexivity.
    + now destruct a.
Qed.

Lemma str_lstrip_all (chars : option string) (s : string) :
  str_lstrip chars s = "" <-> str_rstrip chars s = "".
Proof.
  induction s as [|c s IH]; simpl; [tauto |].
  destruct (trimmable chars c).
  - rewrite IH. destruct (str_rstrip chars s); [tauto|].
    split; discriminate.
  - destruct (str_rstrip chars s); split; discriminate.
Qed.

Lemma str_strip_empty (chars : option string) (s : string) :
  str_strip chars s = "" <-> str_lstrip chars s = "".
Proof.
  unfold str_strip. split.
  - intro H. apply str_lstrip_all in H.
    induction s as [|c s IH]; simpl in *; [reflexivity |].
    destruct (trimmable chars c) eqn:T; [auto |].
    simpl in H. now rewrite T in H.
  - intros ->. reflexivity.
Qed.


(** ** Trimming twice *)

Lemma str_lstrip_idem (chars : option string) (s : string) :
  str_lstrip chars (str_lstrip chars s) = str_lstrip chars s.
Proof.
  induction s as [|c s IH]; simpl; [reflexivity |].
  destruct (trimmable chars c) eqn:T; [exact IH |].
  simpl. now rewrite T.
Qed.

Lemma str_rstrip_cons (chars : option string) (c : ascii) (s : string) :
  str_rstrip chars (String c s) =
  match str_rstrip chars s with
  | EmptyString => if trimmable chars c then EmptyString
                   else String c EmptyString
  | String k ks => String c (String k ks)
  end.
Proof. reflexivity. Qed.

Lemma str_rstrip_idem (chars : option string) (s : string) :
  str_rstrip chars (str_rstrip chars s) = str_rstrip chars s.
Proof.
  induction s as [|c s IH]; simpl; [reflexivity |].
  destruct (str_rstrip chars s) as [|k ks] eqn:R.
  - destruct (trimmable chars c) eqn:T; simpl; [reflexivity |].
    now rewrite T.
  - now rewrite str_rstrip_cons, IH.
Qed.

Lemma str_lstrip_rstrip (chars : option string) (s : string) :
  str_lstrip chars (str_rstrip chars s) = str_rstrip chars (str_lstrip chars s).
Proof.
  induction s as [|c s IH]; simpl; [reflexivity |].
  destruct (trimmable chars c) eqn:T.
  - destruct (str_rstrip chars s) as [|k ks] eqn:R.
    + apply str_lstrip_all in R. rewrite R. reflexivity.
    + cbn [str_lstrip]. rewrite T. exact IH.
  - rewrite str_rstrip_cons.
    destruct (str_rstrip chars s) as [|k ks] eqn:R;
      cbn [str_lstrip]; now rewrite T.
Qed.

Lemma str_strip_idem (chars : option string) (s : string) :
  str_strip chars (str_strip chars s) = str_strip chars s.
Proof.
  unfold str_strip.
  now rewrite str_lstrip_rstrip, str_lstrip_idem, str_rstrip_idem.
Qed.

(** ** The boundary scan *)

Section ScanShape.
Variable method : pystr -> res pystr.

Lemma scan_first_found (ps : list part) (n : nat) (ps' : list part) :
  scan_first method ps = (n, Found ps') ->
  exists removed p p' rest,
    ps = (removed ++ p :: rest)%list /\ ps' = p' :: rest /\
    Forall (fun q => strip_part method q = Ok None) removed /\
    strip_part method p = Ok (Some p') /\ n = S (length removed).
Proof.
  revert n; induction ps as [|q ps IH]; simpl; intros n H.
  - discriminate.
  - destruct (strip_part method q) as [[q'|]|e] eqn:Q.
    + inversion H; subst. exists [], q, q', ps. simpl. auto.
    + destruct (scan_first method ps) as [m o] eqn:S0.
      inversion H; subst.
      destruct (IH _ eq_refl) as (rm & p & p' & rest & -> & -> & Hr & Hp & ->).
      exists (q :: rm), p, p', rest. simpl. auto.
    + discriminate.
Qed.

Lemma scan_first_exhausted (ps : list part) (n : nat) :
  scan_first method ps = (n, Exhausted) ->
  Forall (fun q => strip_part method q = Ok None) ps /\ n = S (length ps).
Proof.
  revert n; induction ps as [|q ps IH]; simpl; intros n H.
  - inversion H; auto.
  - destruct (strip_part method q) as [[q'|]|e] eqn:Q; try discriminate.
    destruct (scan_first method ps) as [m o] eqn:S0.
    inversion H; subst.
    destruct (IH _ eq_refl) as [Hf ->]. auto.
Qed.

Lemma scan_first_raised (ps : list part) (n : nat) (e : exn) :
  scan_first method ps = (n, Raised e) -> n <= length ps.
Proof.
  revert n; induction ps as [|q ps IH]; simpl; intros n H.
  - discriminate.
  - destruct (strip_part method q) as [[q'|]|e'] eqn:Q.
    + discriminate.
    + destruct (scan_first method ps) as [m o] eqn:S0.
      inversion H; subst. specialize (IH _ eq_refl). lia.
    + inversion H; lia.
Qed.

Lemma scan_last_exhausted (ps : list part) (n : nat) :
  scan_last method ps = (n, Exhausted) ->
  Forall (fun q => strip_part method q = Ok None) ps /\ n = S (length ps).
Proof.
  revert n; induction ps as [|q ps IH]; simpl; intros n H.
  - inversion H; auto.
  - destruct (scan_last method ps) as [m [r| |e]] eqn:S0; try discriminate.
    destruct (strip_part method q) as [[q'|]|e] eqn:Q; try discriminate.
    inversion H; subst.
    destruct (IH _ eq_refl) as [Hf ->]. auto.
Qed.

Lemma scan_last_raised (ps : list part) (n : nat) (e : exn) :
  scan_last method ps = (n, Raised e) -> n <= length ps.
Proof.
  revert n; induction ps as [|q ps IH]; simpl; intros n H.
  - discriminate.
  - destruct (scan_last method ps) as [m [r| |e']] eqn:S0.
    + discriminate.
    + destruct (scan_last_exhausted _ S0) as [_ ->].
      destruct (strip_part method q) as [[q'|]|e'] eqn:Q; try discriminate.
      inversion H; lia.
    + inversion H; subst. specialize (IH _ eq_refl). lia.
Qed.

Lemma scan_last_found (ps : list part) (n : nat) (ps' : list part) :
  scan_last method ps = (n, Found ps') ->
  exists kept p p' removed,
    ps = (kept ++ p :: removed)%list /\ ps' = (kept ++ [p'])%list /\
    Forall (fun q => strip_part method q = Ok None) removed /\
    strip_part method p = Ok (Some p') /\ n = S (length removed).
Proof.
  revert n ps'; induction ps as [|q ps IH]; simpl; intros n ps' H.
  - discriminate.
  - destruct (scan_last method ps) as [m [r| |e]] eqn:S0.
    + inversion H; subst.
      destruct (IH _ _ eq_refl) as (k & p & p' & rm & -> & -> & Hr & Hp & ->).
      exists (q :: k), p, p', rm. simpl. auto.
    + destruct (scan_last_exhausted _ S0) as [Hf ->].
      destruct (strip_part method q) as [[q'|]|e] eqn:Q; try discriminate.
      inversion H; subst.
      exists [], q, q', ps. simpl. auto.
    + discriminate.
Qed.
End ScanShape.

Section ScanRev.
Variable method : pystr -> res pystr.

Lemma scan_first_snoc (ps : list part) (p : part) :
  scan_first method (ps ++ [p]) =
  match scan_first method ps with
  | (n, Found l) => (n, Found (l ++ [p])%list)
  | (n, Raised e) => (n, Raised e)
  | (n, Exhausted) =>
      match strip_part method p with
      | Raise e => (n, Raised e)
      | Ok (Some p') => (n, Found [p'])
      | Ok None => (S n, Exhausted)
      end
  end.
Proof.
  induction ps as [|q ps IH]; simpl.
  - now destruct (strip_part method p) as [[p'|]|e].
  - destruct (strip_part method q) as [[q'|]|e]; try reflexivity.
    rewrite IH.
    destruct (scan_first method ps) as [n [l| |e]]; try reflexivity.
    now destruct (strip_part method p) as [[p'|]|e].
Qed.

(** The loop at index -1 is the loop at index 0 on the reversed list. *)
Lemma scan_last_rev (ps : list part) :
  scan_last method ps =
  (fst (scan_first method (rev ps)),
   reversed_end (snd (scan_first method (rev ps)))).
Proof.
  induction ps as [|p ps IH]; simpl; [reflexivity |].
  rewrite IH, scan_first_snoc.
  destruct (scan_first method (rev ps)) as [n [l| |e]]; simpl.
  - now rewrite rev_app_distr.
  - now destruct (strip_part method p) as [[p'|]|e].
  - reflexivity.
Qed.
End ScanRev.


(** ** What the part's own method returns *)

Lemma str_method_text (sd : side) (chars : option string) (s s' : pystr) :
  str_method sd chars s = Ok s' ->
  text s' = builtin_strip sd chars (text s).
Proof.
  destruct s as [t|t ps]; simpl.
  - intro H; inversion H; reflexivity.
  - destruct (snd (scan (str_method sd chars) sd ps)); try discriminate.
    intro H; apply F_with_parts_ok in H as [-> _]. reflexivity.
Qed.

Lemma strip_part_some (sd : side) (chars : option string) (p p' : part) :
  strip_part (str_method sd chars) p = Ok (Some p') ->
  partially_trimmed sd chars p p'.
Proof.
  unfold strip_part, partially_trimmed.
  destruct p as [s|source value formatted]; simpl;
    [destruct (str_method sd chars s) as [s'|e] eqn:E
    |destruct (str_method sd chars formatted) as [s'|e] eqn:E];
    simpl; try discriminate;
    destruct (truthy s') eqn:T; try discriminate;
    intro H; inversion H; subst; simpl;
    apply str_method_text in E; apply truthy_true in T;
    (split; [exact E | split; [exact T | eauto]]).
Qed.

Lemma strip_part_none (sd : side) (chars : option string) (p : part) :
  strip_part (str_method sd chars) p = Ok None ->
  trimmed_away sd chars p.
Proof.
  unfold strip_part, trimmed_away.
  destruct p as [s|source value formatted]; simpl;
    [destruct (str_method sd chars s) as [s'|e] eqn:E
    |destruct (str_method sd chars formatted) as [s'|e] eqn:E];
    simpl; try discriminate;
    destruct (truthy s') eqn:T; try discriminate;
    intros _; apply str_method_text in E; apply truthy_false in T;
    congruence.
Qed.

Lemma removed_trimmed_away (sd : side) (chars : option string)
  (ps : list part) :
  Forall (fun q => strip_part (str_method sd chars) q = Ok None) ps ->
  Forall (trimmed_away sd chars) ps.
Proof.
  intro H; eapply Forall_impl; [|exact H].
  intros q; apply strip_part_none.
Qed.

Lemma trimmed_away_join (sd : side) (chars : option string)
  (ps : list part) :
  Forall (trimmed_away sd chars) ps ->
  builtin_strip sd chars (join ps) = "".
Proof.
  induction 1 as [|p ps Hp _ IH]; simpl.
  - now destruct sd.
  - unfold trimmed_away in Hp. destruct sd; simpl in *.
    + now rewrite str_lstrip_app, Hp.
    + now rewrite str_rstrip_app, IH.
Qed.

(** The parts the scan found reconstruct the trimmed text. *)
Lemma scan_found_join (sd : side) (chars : option string)
  (ps ps' : list part) (n : nat) :
  scan (str_method sd chars) sd ps = (n, Found ps') ->
  join ps' = builtin_strip sd chars (join ps).
Proof.
  destruct sd; simpl; intro H.
  - apply scan_first_found in H
      as (rm & p & p' & rest & -> & -> & Hr & Hp & _).
    apply removed_trimmed_away, trimmed_away_join in Hr. simpl in Hr.
    apply strip_part_some in Hp as (E & NE & _). simpl in E.
    rewrite join_app. simpl.
    rewrite str_lstrip_app, Hr, str_lstrip_app, <- E.
    destruct (shown p'); [now contradiction NE | reflexivity].
  - apply scan_last_found in H
      as (k & p & p' & rm & -> & -> & Hr & Hp & _).
    apply removed_trimmed_away, trimmed_away_join in Hr. simpl in Hr.
    apply strip_part_some in Hp as (E & NE & _). simpl in E.
    rewrite !join_app. simpl. rewrite append_nil_r.
    rewrite str_rstrip_app, (str_rstrip_app chars (shown p)), Hr, <- E.
    destruct (shown p'); [now contradiction NE | reflexivity].
Qed.

(** Under I1, [_strip] returns exactly when its scan ends with [break]:
    the constructor's assertion then holds. *)
Lemma _strip_found (sd : side) (chars : option string) (t : string)
  (ps ps' : list part) (n : nat) :
  join ps = t ->
  scan (str_method sd chars) sd ps = (n, Found ps') ->
  _strip sd chars (FStr t ps) = Ok (FStr (builtin_strip sd chars t) ps').
Proof.
  intros I1 H. unfold _strip; simpl. rewrite H; simpl.
  apply scan_found_join in H.
  apply (F_with_parts_eq (Str (builtin_strip sd chars t))).
  simpl. now rewrite H, I1.
Qed.

Lemma _strip_inv (sd : side) (chars : option string) (t : string)
  (ps : list part) (r : pystr) :
  _strip sd chars (FStr t ps) = Ok r ->
  exists n ps', scan (str_method sd chars) sd ps = (n, Found ps') /\
                r = FStr (builtin_strip sd chars t) ps' /\
                join ps' = builtin_strip sd chars t.
Proof.
  unfold _strip; simpl.
  destruct (scan (str_method sd chars) sd ps) as [n [ps'| |e]] eqn:S0;
    simpl; try discriminate.
  intro H. apply F_with_parts_ok in H as [-> E]. simpl in E.
  exists n, ps'. auto.
Qed.

(** ** What a trim returns *)

Lemma lstrip_shape (chars : option string) (x r : pystr) :
  is_F x = true ->
  lstrip chars x = Ok r ->
  exists removed p p' rest,
    parts_of x = (removed ++ p :: rest)%list /\
    parts_of r = p' :: rest /\
    Forall (trimmed_away Leading chars) removed /\
    partially_trimmed Leading chars p p'.
Proof.
  destruct x as [t|t ps]; [discriminate | intros _ H].
  apply _strip_inv in H as (n & ps' & S0 & -> & _). simpl in S0.
  apply scan_first_found in S0 as (rm & p & p' & rest & -> & -> & Hr & Hp & _).
  exists rm, p, p', rest. simpl.
  split; [reflexivity | split; [reflexivity | split]].
  - now apply removed_trimmed_away.
  - now apply strip_part_some.
Qed.

Lemma rstrip_shape (chars : option string) (x r : pystr) :
  is_F x = true ->
  rstrip chars x = Ok r ->
  exists kept p p' removed,
    parts_of x = (kept ++ p :: removed)%list /\
    parts_of r = (kept ++ [p'])%list /\
    Forall (trimmed_away Trailing chars) removed /\
    partially_trimmed Trailing chars p p'.
Proof.
  destruct x as [t|t ps]; [discriminate | intros _ H].
  apply _strip_inv in H as (n & ps' & S0 & -> & _). simpl in S0.
  apply scan_last_found in S0 as (k & p & p' & rm & -> & -> & Hr & Hp & _).
  exists k, p, p', rm. simpl.
  split; [reflexivity | split; [reflexivity | split]].
  - now apply removed_trimmed_away.
  - now apply strip_part_some.
Qed.

Lemma _strip_returns_F (sd : side) (chars : option string) (x r : pystr) :
  is_F x = true -> _strip sd chars x = Ok r ->
  reconstructs r /\ text r = builtin_strip sd chars (text x).
Proof.
  destruct x as [t|t ps]; [discriminate | intros _ H].
  apply _strip_inv in H as (n & ps' & _ & -> & E).
  repeat split; simpl; auto.
Qed.

Lemma strip_inv (chars : option string) (x r : pystr) :
  strip chars x = Ok r ->
  exists y, lstrip chars x = Ok y /\ rstrip chars y = Ok r.
Proof.
  unfold strip. destruct (lstrip chars x) as [y|e]; simpl; [eauto | discriminate].
Qed.

Lemma strip_text (chars : option string) (x r : pystr) :
  is_F x = true -> strip chars x = Ok r ->
  reconstructs r /\ text r = str_strip chars (text x).
Proof.
  intros HF H. apply strip_inv in H as (y & L & R).
  apply (_strip_returns_F Leading chars x HF) in L as [[HFy _] Ey].
  apply (_strip_returns_F Trailing chars y HFy) in R as [Rr Er].
  split; [exact Rr |]. simpl in *. unfold str_strip. congruence.
Qed.

Lemma _strip_exhausted (sd : side) (chars : option string) (t : string)
  (ps : list part) (n : nat) :
  scan (str_method sd chars) sd ps = (n, Exhausted) ->
  _strip sd chars (FStr t ps) = Raise IndexError.
Proof. intro H. unfold _strip; simpl. now rewrite H. Qed.

Lemma lstrip_first_nonempty (chars : option string) (x r : pystr) :
  is_F x = true -> lstrip chars x = Ok r ->
  text r <> "" /\ exists p rest, parts_of r = p :: rest /\ shown p <> "".
Proof.
  intros HF H.
  destruct (_strip_returns_F Leading chars x HF H) as [[_ I1] _].
  apply lstrip_shape in H as (rm & p & p' & rest & _ & E & _ & (_ & NE & _));
    auto.
  split; [| eauto].
  rewrite <- I1, E. simpl. intro Z. now apply append_empty in Z as [Z _].
Qed.

Lemma rstrip_last_nonempty (chars : option string) (x r : pystr) :
  is_F x = true -> rstrip chars x = Ok r ->
  text r <> "" /\
  exists kept q, parts_of r = (kept ++ [q])%list /\ shown q <> "".
Proof.
  intros HF H.
  destruct (_strip_returns_F Trailing chars x HF H) as [[_ I1] _].
  apply rstrip_shape in H as (k & p & p' & rm & _ & E & _ & (_ & NE & _));
    auto.
  split; [| eauto].
  rewrite <- I1, E, join_app. simpl. intro Z.
  apply append_empty in Z as [_ Z]. now apply append_empty in Z as [Z _].
Qed.

Lemma strip_ends_nonempty (chars : option string) (x r : pystr) :
  is_F x = true -> strip chars x = Ok r ->
  text r <> "" /\
  exists p rest kept q,
    parts_of r = p :: rest /\ parts_of r = (kept ++ [q])%list /\
    shown p <> "" /\ shown q <> "".
Proof.
  intros HF H. apply strip_inv in H as (y & Hl & Hr).
  destruct (_strip_returns_F Leading chars x HF Hl) as [[HFy _] _].
  destruct (lstrip_first_nonempty chars x HF Hl) as (_ & p & rest & Ey & NEp).
  destruct (rstrip_last_nonempty chars y HFy Hr)
    as (NEr & kept & q & Er & NEq).
  split; [exact NEr |].
  apply rstrip_shape in Hr as (k & a & a' & rm & Ey' & Er' & _ & Ha); auto.
  destruct k as [|k0 k].
  - (* the first part of [y] is also the one trimmed on the right *)
    simpl in Er'. exists a', [], [], a'.
    destruct Ha as (_ & NE & _). repeat split; auto.
  - simpl in Ey', Er'. rewrite Ey in Ey'. inversion Ey'; subst k0.
    exists p, (k ++ [a'])%list, kept, q. repeat split; auto.
Qed.

(** ** The scan stays inside the list *)

Lemma scan_not_exhausted (sd : side) (chars : option string)
  (ps : list part) (n : nat) :
  builtin_strip sd chars (join ps) <> "" ->
  scan (str_method sd chars) sd ps <> (n, Exhausted).
Proof.
  intros NE S0. apply NE.
  apply trimmed_away_join, removed_trimmed_away.
  destruct sd; simpl in S0.
  - now apply scan_first_exhausted in S0.
  - now apply scan_last_exhausted in S0.
Qed.

Lemma scan_iterations (method : pystr -> res pystr) (sd : side)
  (ps : list part) :
  snd (scan method sd ps) <> Exhausted ->
  fst (scan method sd ps) <= length ps.
Proof.
  destruct (scan method sd ps) as [n [ps'| |e]] eqn:S0; simpl; intro NE.
  - destruct sd; simpl in S0.
    + apply scan_first_found in S0 as (rm & p & p' & rest & -> & _ & _ & _ & ->).
      rewrite length_app; simpl; lia.
    + apply scan_last_found in S0 as (k & p & p' & rm & -> & _ & _ & _ & ->).
      rewrite length_app; simpl; lia.
  - now contradiction NE.
  - destruct sd; simpl in S0.
    + now apply scan_first_raised in S0.
    + now apply scan_last_raised in S0.
Qed.

Lemma builtin_strip_empty (sd : side) (chars : option string) (t : string) :
  builtin_strip sd chars t = "" <-> str_strip chars t = "".
Proof.
  rewrite str_strip_empty. destruct sd; simpl; [tauto |].
  symmetry. apply str_lstrip_all.
Qed.

(** For a string that satisfies I1 and whose trimmed text is not empty,
    the scan never reaches [parts[index]] on the string's own emptied
    list, and it begins at most [len(parts)] iterations; the method of a
    part that is itself an [F] may still raise. *)
Theorem scan_stays_in_bounds (sd : side) (chars : option string)
  (t : string) (ps : list part) :
  join ps = t ->
  str_strip chars t <> "" ->
  snd (scan (str_method sd chars) sd ps) <> Exhausted /\
  fst (scan (str_method sd chars) sd ps) <= length ps.
Proof.
  intros I1 NE. rewrite <- I1, <- (builtin_strip_empty sd) in NE.
  assert (H : snd (scan (str_method sd chars) sd ps) <> Exhausted).
  { destruct (scan (str_method sd chars) sd ps) as [n o] eqn:S0; simpl.
    intros ->. exact (@scan_not_exhausted sd chars ps n NE S0). }
  split; [exact H | now apply scan_iterations].
Qed.

Lemma scan_stays_in_bounds_witness :
  join (parts_of Sample.padded_hello) = "   hello   " /\
  str_strip None "   hello   " <> "" /\
  snd (scan (str_method Trailing None) Trailing
            (parts_of Sample.padded_hello))
    <> Exhausted /\
  fst (scan (str_method Trailing None) Trailing
            (parts_of Sample.padded_hello))
    <= length (parts_of Sample.padded_hello).
Proof.
  split; [reflexivity | split; [simpl; discriminate |]].
  apply (@scan_stays_in_bounds Trailing None "   hello   ").
  - reflexivity.
  - simpl; discriminate.
Defined.

(** ** Strings that trim to nothing *)

Lemma str_lstrip_app_empty (chars : option string) (a b : string) :
  str_lstrip chars (a ++ b) = "" ->
  str_lstrip chars a = "" /\ str_lstrip chars b = "".
Proof.
  rewrite str_lstrip_app.
  destruct (str_lstrip chars a); [auto | discriminate].
Qed.

Lemma builtin_strip_app_empty (sd : side) (chars : option string)
  (a b : string) :
  builtin_strip sd chars (a ++ b) = "" ->
  builtin_strip sd chars a = "" /\ builtin_strip sd chars b = "".
Proof.
  destruct sd; simpl.
  - apply str_lstrip_app_empty.
  - intro H. apply str_lstrip_all, str_lstrip_app_empty in H as [A B].
    split; now apply str_lstrip_all.
Qed.

Lemma strip_part_plain_none (sd : side) (chars : option string) (p : part) :
  plain_part p -> trimmed_away sd chars p ->
  strip_part (str_method sd chars) p = Ok None.
Proof.
  unfold trimmed_away, strip_part.
  destruct p as [[t|]|source value [t|]]; simpl; try contradiction;
    intros _ ->; reflexivity.
Qed.

Lemma scan_plain_exhausted (sd : side) (chars : option string)
  (ps : list part) :
  Forall plain_part ps ->
  builtin_strip sd chars (join ps) = "" ->
  scan (str_method sd chars) sd ps = (S (length ps), Exhausted).
Proof.
  induction 1 as [|p ps Hp _ IH]; simpl; intro E.
  - now destruct sd.
  - apply builtin_strip_app_empty in E as [Ep Eps].
    specialize (IH Eps).
    destruct sd; simpl in *.
    + now rewrite (@strip_part_plain_none Leading chars p Hp Ep), IH.
    + now rewrite IH, (@strip_part_plain_none Trailing chars p Hp Ep).
Qed.

(** ** Parts that show exact strings *)

Lemma strip_part_plain (sd : side) (chars : option string) (p : part) :
  plain_part p ->
  strip_part (str_method sd chars) p = Ok None \/
  exists p', strip_part (str_method sd chars) p = Ok (Some p') /\
             plain_part p'.
Proof.
  unfold strip_part.
  destruct p as [[t|]|source value [t|]]; simpl; try contradiction;
    intros _; destruct (truthy _); simpl;
    solve [now left | right; eexists; split; [reflexivity | exact I]].
Qed.

Lemma scan_first_plain (sd : side) (chars : option string) (ps : list part) :
  Forall plain_part ps ->
  match snd (scan_first (str_method sd chars) ps) with
  | Found ps' => Forall plain_part ps'
  | Exhausted => True
  | Raised _ => False
  end.
Proof.
  induction 1 as [|p ps Hp Hps IH]; simpl; [exact I |].
  destruct (strip_part_plain sd chars p Hp) as [-> | (p' & -> & Hp')].
  - now destruct (scan_first (str_method sd chars) ps).
  - simpl. now constructor.
Qed.

Lemma reversed_end_plain (o : scan_end) :
  match o with
  | Found ps' => Forall plain_part ps'
  | Exhausted => True
  | Raised _ => False
  end ->
  match reversed_end o with
  | Found ps' => Forall plain_part ps'
  | Exhausted => True
  | Raised _ => False
  end.
Proof.
  destruct o; simpl; auto. intro H.
  apply Forall_forall. intros q Hq. apply in_rev in Hq.
  revert q Hq. now apply Forall_forall.
Qed.

Lemma scan_plain (sd : side) (chars : option string) (ps : list part) :
  Forall plain_part ps ->
  match snd (scan (str_method sd chars) sd ps) with
  | Found ps' => Forall plain_part ps'
  | Exhausted => True
  | Raised _ => False
  end.
Proof.
  intro H. destruct sd; simpl.
  - now apply scan_first_plain.
  - rewrite scan_last_rev. simpl.
    apply reversed_end_plain, scan_first_plain.
    apply Forall_forall. intros q Hq. apply in_rev in Hq.
    revert q Hq. now apply Forall_forall.
Qed.

(** On such parts the trim returns as soon as something is left. *)
Lemma _strip_plain_returns (sd : side) (chars : option string) (t : string)
  (ps : list part) :
  join ps = t ->
  Forall plain_part ps ->
  builtin_strip sd chars t <> "" ->
  exists ps',
    _strip sd chars (FStr t ps) = Ok (FStr (builtin_strip sd chars t) ps') /\
    Forall plain_part ps' /\ join ps' = builtin_strip sd chars t.
Proof.
  intros I1 Hp NE. assert (P := scan_plain sd chars Hp).
  destruct (scan (str_method sd chars) sd ps) as [n [ps'| |e]] eqn:S0;
    simpl in P.
  - exists ps'. split; [now apply (@_strip_found sd chars t ps ps' n I1 S0) |].
    split; [exact P |]. apply scan_found_join in S0. congruence.
  - exfalso. rewrite <- I1 in NE.
    exact (@scan_not_exhausted sd chars ps n NE S0).
  - contradiction.
Qed.




Lemma strip_plain_returns (chars : option string) (t : string)
  (ps : list part) :
  join ps = t ->
  Forall plain_part ps ->
  str_strip chars t <> "" ->
  exists ps',
    strip chars (FStr t ps) = Ok (FStr (str_strip chars t) ps') /\
    Forall plain_part ps' /\ join ps' = str_strip chars t.
Proof.
  intros I1 Hp NE.
  assert (NL : builtin_strip Leading chars t <> "").
  { simpl. intro Z. apply NE. now apply str_strip_empty. }
  destruct (_strip_plain_returns Leading chars I1 Hp NL)
    as (ps1 & L & Hp1 & J1).
  destruct (@_strip_plain_returns Trailing chars _ ps1 J1 Hp1 NE)
    as (ps2 & R & Hp2 & J2).
  exists ps2. unfold strip, lstrip, rstrip. rewrite L. simpl.
  auto.
Qed.

(** [s.strip().text == s.text.strip()] and [s.strip().strip() == s.strip()]
    wherever something is left by the trim. *)
Lemma strip_plain_spec (chars : option string) (t : string)
  (ps : list part) :
  join ps = t ->
  Forall plain_part ps ->
  str_strip chars t <> "" ->
  exists r,
    strip chars (FStr t ps) = Ok r /\ text r = str_strip chars t /\
    exists r', strip chars r = Ok r' /\ text r' = text r.
Proof.
  intros I1 Hp NE.
  destruct (strip_plain_returns chars I1 Hp NE) as (ps' & S1 & Hp' & J').
  exists (FStr (str_strip chars t) ps'). split; [exact S1 |].
  split; [reflexivity |].
  assert (NE' : str_strip chars (str_strip chars t) <> "")
    by now rewrite str_strip_idem.
  destruct (strip_plain_returns chars J' Hp' NE') as (ps'' & S2 & _ & _).
  exists (FStr (str_strip chars (str_strip chars t)) ps'').
  split; [exact S2 |]. simpl. apply str_strip_idem.
Qed.

(** ** Trimming: what happens to the parts *)

(** C7.  When [lstrip] / [rstrip] returns, the parts it deleted are the
    ones trimmed to nothing at the boundary, the next part is replaced by
    its trimmed form (an [FValue] keeps [source] and [value], only
    [formatted] becomes the remainder), and every other part is the one of
    the original; [strip] is the two in sequence.  On a string that
    satisfies I1 the trim returns whenever its scan stops at a part with a
    remainder. *)
Theorem strip_keeps_other_parts (chars : option string) (x r : pystr) :
  is_F x = true ->
  (lstrip chars x = Ok r ->
   exists removed p p' rest,
     parts_of x = (removed ++ p :: rest)%list /\
     parts_of r = p' :: rest /\
     Forall (trimmed_away Leading chars) removed /\
     partially_trimmed Leading chars p p') /\
  (rstrip chars x = Ok r ->
   exists kept p p' removed,
     parts_of x = (kept ++ p :: removed)%list /\
     parts_of r = (kept ++ [p'])%list /\
     Forall (trimmed_away Trailing chars) removed /\
     partially_trimmed Trailing chars p p') /\
  (strip chars x = Ok r ->
   exists y, is_F y = true /\ lstrip chars x = Ok y /\ rstrip chars y = Ok r) /\
  (forall sd n ps',
      join (parts_of x) = text x ->
      scan (str_method sd chars) sd (parts_of x) = (n, Found ps') ->
      _strip sd chars x = Ok (FStr (builtin_strip sd chars (text x)) ps')).
Proof.
  intro HF. split; [| split; [| split]].
  - now apply lstrip_shape.
  - now apply rstrip_shape.
  - intro H. apply strip_inv in H as (y & L & R).
    exists y. repeat split; auto.
    now apply (_strip_returns_F Leading chars x HF) in L as [[? _] _].
  - destruct x as [t|t ps]; [discriminate |].
    intros sd n ps' I1 S0.
    now apply (@_strip_found sd chars t ps ps' n I1 S0).
Qed.

Lemma strip_keeps_other_parts_witness :
  is_F Sample.quoted_a_b = true /\
  lstrip None Sample.quoted_a_b
  = Ok (FStr "ab " [PFValue "' a'" (VStr (Str " a")) (Str "a");
                    PStr (Str "b ")]) /\
  exists removed p p' rest,
    parts_of Sample.quoted_a_b = (removed ++ p :: rest)%list /\
    parts_of (FStr "ab " [PFValue "' a'" (VStr (Str " a")) (Str "a");
                          PStr (Str "b ")]) = p' :: rest /\
    Forall (trimmed_away Leading None) removed /\
    partially_trimmed Leading None p p'.
Proof.
  split; [reflexivity | split; [reflexivity |]].
  apply (strip_keeps_other_parts None Sample.quoted_a_b
           (FStr "ab " [PFValue "' a'" (VStr (Str " a")) (Str "a");
                        PStr (Str "b ")]) eq_refl).
  reflexivity.
Defined.

(** C2, amended.  In a result that is not empty, the first part after
    [lstrip], the last part after [rstrip], and both after [strip], show a
    non-empty text.  The parts behind the first one ([lstrip]) or before
    the last one ([rstrip]) are those of the original, in place; [strip]
    is [lstrip] followed by [rstrip]. *)
Theorem strip_boundary_parts_nonempty (chars : option string) (x r : pystr) :
  is_F x = true ->
  text r <> "" ->
  (lstrip chars x = Ok r ->
   exists p rest,
     parts_of r = p :: rest /\ shown p <> "" /\
     exists removed p0, parts_of x = (removed ++ p0 :: rest)%list) /\
  (rstrip chars x = Ok r ->
   exists kept q,
     parts_of r = (kept ++ [q])%list /\ shown q <> "" /\
     exists q0 removed, parts_of x = (kept ++ q0 :: removed)%list) /\
  (strip chars x = Ok r ->
   (exists p rest kept q,
       parts_of r = p :: rest /\ parts_of r = (kept ++ [q])%list /\
       shown p <> "" /\ shown q <> "") /\
   exists y, is_F y = true /\ lstrip chars x = Ok y /\ rstrip chars y = Ok r).
Proof.
  intros HF _. split; [| split]; intro H.
  - apply (lstrip_shape chars x HF) in H
      as (rm & p0 & p & rest & Ex & Er & _ & (_ & NE & _)).
    exists p, rest. repeat split; auto. now exists rm, p0.
  - apply (rstrip_shape chars x HF) in H
      as (kept & q0 & q & rm & Ex & Er & _ & (_ & NE & _)).
    exists kept, q. repeat split; auto. now exists q0, rm.
  - split.
    + now apply (strip_ends_nonempty chars x HF) in H.
    + apply strip_inv in H as (y & L & R). exists y.
      repeat split; auto.
      now apply (_strip_returns_F Leading chars x HF) in L as [[? _] _].
Qed.

Lemma strip_boundary_parts_nonempty_witness :
  is_F Sample.padded_hello = true /\
  text (FStr "hello" [PStr (Str "hello")]) <> "" /\
  strip None Sample.padded_hello = Ok (FStr "hello" [PStr (Str "hello")]) /\
  (exists p rest kept q,
      parts_of (FStr "hello" [PStr (Str "hello")]) = p :: rest /\
      parts_of (FStr "hello" [PStr (Str "hello")]) = (kept ++ [q])%list /\
      shown p <> "" /\ shown q <> "") /\
  exists y, is_F y = true /\ lstrip None Sample.padded_hello = Ok y /\
            rstrip None y = Ok (FStr "hello" [PStr (Str "hello")]).
Proof.
  assert (NE : text (FStr "hello" [PStr (Str "hello")]) <> "")
    by (simpl; discriminate).
  split; [reflexivity | split; [exact NE | split; [reflexivity |]]].
  apply (strip_boundary_parts_nonempty None Sample.padded_hello
           (FStr "hello" [PStr (Str "hello")]) eq_refl NE).
  reflexivity.
Defined.

(** C2 as stated fails: an empty part that is not at the boundary stays
    in the result of [strip], although the result is not empty. *)
Lemma strip_keeps_empty_inner_part :
  exists r, strip None Sample.a_empty_b = Ok r /\ text r <> "" /\
            exists p, In p (parts_of r) /\ shown p = "".
Proof.
  exists Sample.a_empty_b. split; [reflexivity | split; [discriminate |]].
  exists (PFValue "''" (VStr (Str "")) (Str "")).
  split; [simpl; auto | reflexivity].
Qed.

(** C5 at the inputs where the code departs from it.  On a string that
    satisfies I1, whose parts show exact strings and whose text trims to
    the empty string, [lstrip], [rstrip] and [strip] raise [IndexError];
    they do not return the empty string. *)
Theorem strip_all_trimmable_raises (chars : option string) (t : string)
  (ps : list part) :
  join ps = t ->
  Forall plain_part ps ->
  str_strip chars t = "" ->
  lstrip chars (FStr t ps) = Raise IndexError /\
  rstrip chars (FStr t ps) = Raise IndexError /\
  strip chars (FStr t ps) = Raise IndexError.
Proof.
  intros I1 Hp E. apply str_strip_empty in E.
  assert (L : lstrip chars (FStr t ps) = Raise IndexError).
  { apply (@_strip_exhausted Leading chars t ps (S (length ps))).
    apply scan_plain_exhausted; [exact Hp |]. simpl. now rewrite I1. }
  split; [exact L | split].
  - apply (@_strip_exhausted Trailing chars t ps (S (length ps))).
    apply scan_plain_exhausted; [exact Hp |].
    simpl. rewrite I1. now apply str_lstrip_all.
  - unfold strip. now rewrite L.
Qed.

Lemma strip_all_trimmable_raises_witness :
  lstrip None Sample.blank = Raise IndexError /\
  rstrip None Sample.blank = Raise IndexError /\
  strip None Sample.blank = Raise IndexError.
Proof.
  apply (@strip_all_trimmable_raises None " " [PStr (Str " ")]).
  - reflexivity.
  - repeat constructor.
  - reflexivity.
Defined.

(** ** Flattening *)

Lemma flatten_inv (x r : pystr) :
  flatten x = Ok r ->
  exists t ps out,
    x = FStr t ps /\ flatten_loop flatten ps [] = Ok out /\
    r = FStr t out /\ join out = t.
Proof.
  destruct x as [t|t ps]; simpl; [discriminate |].
  destruct (flatten_loop flatten ps []) as [out|e] eqn:L; simpl;
    [| discriminate].
  intro H. apply F_with_parts_ok in H as [-> E]. simpl in *.
  exists t, ps, out. repeat split; auto.
Qed.

Lemma flatten_reconstructs (x r : pystr) :
  flatten x = Ok r -> reconstructs r /\ text r = text x.
Proof.
  intro H. apply flatten_inv in H as (t & ps & out & -> & _ & -> & J).
  repeat split; auto.
Qed.

Lemma flat_app (a b : list part) : flat a -> flat b -> flat (a ++ b).
Proof. intros; apply Forall_app; auto. Qed.

Lemma flat_single (p : part) : nests p = false -> flat [p].
Proof. intro H; repeat constructor; exact H. Qed.

Lemma flatten_loop_flat (ps : list part) :
  Forall (part_holds (fun x => forall r, flatten x = Ok r -> flat (parts_of r)))
         ps ->
  forall acc out,
    flat acc -> flatten_loop flatten ps acc = Ok out -> flat out.
Proof.
  induction 1 as [|p ps Hp _ IH]; simpl; intros acc out Hacc H.
  - inversion H; subst; exact Hacc.
  - destruct p as [[t|t ps']|source [[t|t ps']|repr] formatted];
      simpl in Hp;
      try (solve [eapply IH; [| exact H];
                  apply flat_app; [exact Hacc | now apply flat_single]]).
    + destruct (flatten (FStr t ps')) as [r|e] eqn:E; simpl in H;
        [| discriminate].
      apply (IH _ _ (flat_app Hacc (Hp _ E)) H).
    + destruct Hp as [Hv _].
      destruct (flatten (FStr t ps')) as [r|e] eqn:E; simpl in H;
        [| discriminate].
      apply (IH _ _ (flat_app Hacc (Hv _ E)) H).
Qed.

Lemma flatten_result_flat (x r : pystr) :
  flatten x = Ok r -> flat (parts_of r).
Proof.
  revert r. induction x as [t|t ps IH] using pystr_nested_ind; intros r H.
  - discriminate.
  - apply flatten_inv in H as (t' & ps' & out & E & L & -> & _).
    inversion E; subst t' ps'. simpl.
    apply (flatten_loop_flat IH (Forall_nil _) L).
Qed.

Lemma flatten_loop_of_flat (ps : list part) :
  flat ps ->
  forall acc, flatten_loop flatten ps acc = Ok (acc ++ ps)%list.
Proof.
  induction 1 as [|p ps Hp _ IH]; simpl; intro acc.
  - now rewrite app_nil_r.
  - destruct p as [[t|t ps']|source [[t|t ps']|repr] formatted];
      simpl in Hp; try discriminate;
      rewrite IH, <- app_assoc; reflexivity.
Qed.

Lemma flatten_loop_total (ps : list part) :
  Forall (part_holds (fun x => is_F x = true -> well_nested x = true ->
                               exists r, flatten x = Ok r)) ps ->
  forallb (fun p =>
             match p with
             | PFValue _ (VStr (FStr _ _ as v)) formatted =>
                 String.eqb (text formatted) (text v) && well_nested v
             | PStr (FStr _ _ as f) => well_nested f
             | _ => true
             end) ps = true ->
  forall acc, exists out,
    flatten_loop flatten ps acc = Ok out /\ join out = join acc ++ join ps.
Proof.
  induction 1 as [|p ps Hp _ IH]; simpl; intros W acc.
  - exists acc. now rewrite append_nil_r.
  - apply andb_prop in W as [Wp Wps]. specialize (IH Wps).
    destruct p as [[t|t ps']|source [[t|t ps']|repr] formatted];
      unfold part_holds in Hp;
      try (match goal with
           | |- context [flatten_loop _ _ (acc ++ [?q])%list] =>
               destruct (IH (acc ++ [q])%list) as (out & L & J)
           end;
           exists out; split; [exact L |];
           rewrite J, join_app; simpl;
           now rewrite append_nil_r, append_assoc).
    + destruct (Hp eq_refl Wp) as [r Hr]. rewrite Hr; simpl.
      destruct (IH (acc ++ parts_of r)%list) as (out & L & J).
      exists out; split; [exact L |].
      apply flatten_inv in Hr as (t' & ps'' & o & E & _ & -> & Jo).
      inversion E; subst. simpl in J.
      now rewrite J, join_app, append_assoc.
    + destruct Hp as [Hv _].
      apply andb_prop in Wp as [Wt Wv]. apply String.eqb_eq in Wt.
      destruct (Hv eq_refl Wv) as [r Hr]. rewrite Hr; simpl.
      destruct (IH (acc ++ parts_of r)%list) as (out & L & J).
      exists out; split; [exact L |].
      apply flatten_inv in Hr as (t' & ps'' & o & E & _ & -> & Jo).
      inversion E; subst. simpl in J, Wt.
      now rewrite J, join_app, append_assoc, Wt.
Qed.

Lemma flatten_total (x : pystr) :
  is_F x = true -> well_nested x = true -> exists r, flatten x = Ok r.
Proof.
  induction x as [t|t ps IH] using pystr_nested_ind; intros HF W.
  - discriminate.
  - simpl in W. apply andb_prop in W as [Wt Wps].
    apply String.eqb_eq in Wt.
    destruct (flatten_loop_total IH Wps []) as (out & L & J).
    simpl in J. exists (FStr t out). simpl. rewrite L; simpl.
    apply (F_with_parts_eq (Str t)). simpl. congruence.
Qed.

(** [flatten] returns whenever the string is well nested; whenever it
    returns, the result is an [F] with the same text that satisfies I1,
    none of its parts is an [F] or an [FValue] whose value is an [F], and
    flattening the result returns the result itself. *)
Theorem flatten_spec (x : pystr) :
  (is_F x = true -> well_nested x = true -> exists r, flatten x = Ok r) /\
  (forall r, flatten x = Ok r ->
             reconstructs r /\ text r = text x /\ flat (parts_of r) /\
             flatten r = Ok r).
Proof.
  split; [apply flatten_total |].
  intros r H. assert (Hflat := flatten_result_flat x H).
  apply flatten_inv in H as (t & ps & out & -> & L & -> & J).
  simpl in *. repeat split; auto.
  rewrite (flatten_loop_of_flat Hflat); simpl.
  apply (F_with_parts_eq (Str t)). simpl. congruence.
Qed.

Lemma flatten_spec_witness :
  (exists r, flatten Sample.hello_world_bang = Ok r) /\
  reconstructs (FStr "hello world!"
                  [PStr (Str "hello "); PStr (Str "world"); PStr (Str "!")]) /\
  flat [PStr (Str "hello "); PStr (Str "world"); PStr (Str "!")].
Proof.
  destruct (flatten_spec Sample.hello_world_bang) as [T S0].
  split; [apply T; reflexivity |].
  destruct (S0 (FStr "hello world!"
                  [PStr (Str "hello "); PStr (Str "world"); PStr (Str "!")])
               eq_refl) as (R & _ & Fl & _).
  split; [exact R | exact Fl].
Defined.

(** C4 at an input where the code departs from it.  For [x = F("hi")],
    [F(f"{x:>5}")] satisfies I1, and [flatten] on it does not return a
    string with the same text: it replaces the part by the parts of [x],
    which show ["hi"] and not the padded ["   hi"], and the constructor
    raises [AssertionError]. *)
Lemma flatten_padded_value_raises :
  reconstructs Sample.padded_hi /\
  flatten Sample.padded_hi = Raise AssertionError.
Proof. repeat split. Qed.

(** ** Construction, decomposition and concatenation at a call site *)

Section CallSiteFacts.
Variable Frame : Type.
Variable unparse : node -> string.
Variable eval_source : string -> Frame -> res pyval * Frame.
Variable eval_code : node -> Frame -> res string * Frame.
Variable executing_node : Frame -> option node.

Local Abbreviation decompose :=
  (_parts_from_node unparse eval_source eval_code).
Local Abbreviation new := (F_new unparse eval_source eval_code executing_node).
Local Abbreviation add := (_add unparse eval_source eval_code executing_node).

(** *** The decomposer, branch by branch *)

Lemma decompose_literal (s : string) (value : option pystr) (fr : Frame) :
  decompose (Constant (CStr s)) value fr = (Ok [PStr (Str s)], fr).
Proof. reflexivity. Qed.

Lemma decompose_joined_nil (value : option pystr) (fr : Frame) :
  decompose (JoinedStr []) value fr = (Ok [], fr).
Proof. reflexivity. Qed.

Lemma joined_loop_acc (values : list node) (acc ps : list part)
  (fr fr' : Frame) :
  joined_loop (fun v => decompose v None) values [] fr = (Ok ps, fr') ->
  joined_loop (fun v => decompose v None) values acc fr
  = (Ok (acc ++ ps)%list, fr').
Proof.
  assert (G : forall values a b ps fr fr',
             joined_loop (fun v => decompose v None) values a fr
             = (Ok ps, fr') ->
             joined_loop (fun v => decompose v None) values (b ++ a) fr
             = (Ok (b ++ ps)%list, fr')).
  { clear. induction values as [|v values IH]; simpl; intros a b ps fr fr' H.
    - unfold ret in *. inversion H; reflexivity.
    - unfold bind in *.
      destruct (decompose v None fr) as [[pv|e] fr1]; [| discriminate].
      rewrite <- app_assoc. now apply IH. }
  intro H. apply (G values [] acc) in H. now rewrite app_nil_r in H.
Qed.

(** The children's decompositions, in order, each in the frame the
    previous one left. *)
Lemma decompose_joined_cons (v : node) (values : list node)
  (value : option pystr) (pv ps : list part) (fr fr1 fr2 : Frame) :
  decompose v None fr = (Ok pv, fr1) ->
  decompose (JoinedStr values) None fr1 = (Ok ps, fr2) ->
  decompose (JoinedStr (v :: values)) value fr = (Ok (pv ++ ps)%list, fr2).
Proof.
  intros Hv Hs. simpl in *.
  unfold bind at 1. rewrite Hv. simpl.
  now apply joined_loop_acc.
Qed.

Lemma decompose_joined_raise (v : node) (values : list node)
  (value : option pystr) (e : exn) (fr fr1 : Frame) :
  decompose v None fr = (Raise e, fr1) ->
  decompose (JoinedStr (v :: values)) value fr = (Raise e, fr1).
Proof.
  intros Hv. simpl in *.
  unfold bind at 1. now rewrite Hv.
Qed.

Lemma decompose_formatted (v : node) (conversion : Z)
  (format_spec : option node) (value : option pystr)
  (val : pyval) (formatted : string) (fr fr1 fr2 : Frame) :
  eval_source (unparse v) fr = (Ok val, fr1) ->
  eval_code (JoinedStr [FormattedValue v conversion format_spec]) fr1
  = (Ok formatted, fr2) ->
  decompose (FormattedValue v conversion format_spec) value fr
  = (Ok [PFValue (unparse v) val (Str formatted)], fr2).
Proof.
  intros Hs Hc. simpl. unfold bind.
  now rewrite Hs, Hc.
Qed.

Lemma decompose_other (n : node) (v : pystr) (fr : Frame) :
  other_expression n = true ->
  decompose n (Some v) fr = (Ok [PFValue (unparse n) (VStr v) v], fr).
Proof. destruct n; simpl; try discriminate; reflexivity. Qed.

(** *** Construction *)

Lemma new_reconstructs (s : pystr) (parts : option (list part))
  (fr fr' : Frame) (r : pystr) (ws : list warning) :
  new s parts fr = (Ok r, fr', ws) -> reconstructs r.
Proof.
  unfold F_new. destruct parts as [ps|].
  - intro H; inversion H. eapply F_with_parts_reconstructs; eauto.
  - destruct (executing_node fr) as [n|].
    + destruct n; try discriminate.
      destruct args as [|arg [|]]; try discriminate.
      destruct (_parts_from_node _ _ _ arg (Some s) fr) as [[ps|e] fr1];
        simpl; intro H; inversion H.
      eapply F_with_parts_reconstructs; eauto.
    + intro H; inversion H. eapply F_with_parts_reconstructs; eauto.
Qed.

Lemma new_from_call (s : pystr) (fr : Frame) (func arg : node) :
  executing_node fr = Some (Call func [arg]) ->
  new s None fr
  = (res_bind (fst (decompose arg (Some s) fr)) (F_with_parts s),
     snd (decompose arg (Some s) fr), []).
Proof.
  intro H. unfold F_new. rewrite H.
  now destruct (_parts_from_node _ _ _ arg (Some s) fr).
Qed.

Lemma new_call_arity (s : pystr) (fr : Frame) (func : node)
  (args : list node) :
  executing_node fr = Some (Call func args) ->
  length args <> 1 ->
  new s None fr = (Raise ValueError, fr, []).
Proof.
  intros H L. unfold F_new. rewrite H.
  destruct args as [|arg [|]]; try reflexivity. now contradiction L.
Qed.

(** C8 where the code departs from it.  When the frame has no node,
    construction without parts does not raise: it returns the string with
    itself as the only part and issues exactly one warning.  That warning
    is issued with a message only, so it is a [UserWarning]: none is a
    [NoSourceAvailableWarning]. *)
Theorem new_without_node (s : pystr) (fr : Frame) :
  executing_node fr = None ->
  new s None fr
  = (Ok (FStr (text s) [PStr s]), fr,
     [Warn UserWarning "Couldn't get source node of F() call"]) /\
  filter (has_category NoSourceAvailableWarning) (snd (new s None fr)) = [].
Proof.
  intro H.
  assert (E : new s None fr
              = (Ok (FStr (text s) [PStr s]), fr,
                 [Warn UserWarning "Couldn't get source node of F() call"])).
  { unfold F_new. rewrite H.
    rewrite F_with_parts_eq; [reflexivity |].
    simpl. now rewrite append_nil_r. }
  split; [exact E | now rewrite E].
Qed.


(** *** Concatenation *)

Lemma add_fallback (self other : pystr) (is_left : bool) (fr : Frame) :
  addition_operands (executing_node fr) = None ->
  add self other is_left fr
  = (F_with_parts
       (Str (text (left_operand self other is_left)
             ++ text (right_operand self other is_left)))
       [PStr (left_operand self other is_left);
        PStr (right_operand self other is_left)],
     fr).
Proof.
  unfold _add. destruct (executing_node fr) as [n|];
    [| now destruct is_left].
  destruct n; try (now destruct is_left);
    destruct op; try (now destruct is_left); discriminate.
Qed.

Lemma add_precise (self other : pystr) (is_left : bool) (fr : Frame)
  (left_node right_node : node) :
  addition_operands (executing_node fr) = Some (left_node, right_node) ->
  add self other is_left fr
  = bind (decompose left_node (Some (left_operand self other is_left)))
         (fun left_parts =>
          bind (decompose right_node
                  (Some (right_operand self other is_left)))
               (fun right_parts =>
                lift (F_with_parts
                        (Str (text (left_operand self other is_left)
                              ++ text (right_operand self other is_left)))
                        (left_parts ++ right_parts)))) fr.
Proof.
  unfold _add. destruct (executing_node fr) as [n|]; [| discriminate].
  destruct n; try discriminate; destruct op; try discriminate;
    simpl; intro H; inversion H; now destruct is_left.
Qed.

Lemma add_reconstructs (self other : pystr) (is_left : bool)
  (fr fr' : Frame) (r : pystr) :
  add self other is_left fr = (Ok r, fr') ->
  reconstructs r /\
  text r = text (left_operand self other is_left)
           ++ text (right_operand self other is_left).
Proof.
  destruct (addition_operands (executing_node fr)) as [[ln rn]|] eqn:A.
  - rewrite (add_precise self other is_left fr A). unfold bind, lift.
    destruct (decompose ln _ fr) as [[lp|e] fr1]; [| discriminate].
    destruct (decompose rn _ fr1) as [[rp|e] fr2]; [| discriminate].
    intro H; inversion H as [[E F']].
    split; [eapply F_with_parts_reconstructs; eauto |].
    apply F_with_parts_ok in E as [-> _]. reflexivity.
  - rewrite (add_fallback self other is_left fr A).
    intro H; inversion H as [[E F']].
    split; [eapply F_with_parts_reconstructs; eauto |].
    apply F_with_parts_ok in E as [-> _]. reflexivity.
Qed.

(** Operands that are neither string constants nor f-strings (names,
    calls, ...) are kept whole, and the addition returns. *)
Lemma add_other_expressions (self other : pystr) (is_left : bool)
  (fr : Frame) (left_node right_node : node) :
  addition_operands (executing_node fr) = Some (left_node, right_node) ->
  other_expression left_node = true ->
  other_expression right_node = true ->
  add self other is_left fr
  = (Ok (FStr (text (left_operand self other is_left)
               ++ text (right_operand self other is_left))
              [PFValue (unparse left_node)
                       (VStr (left_operand self other is_left))
                       (left_operand self other is_left);
               PFValue (unparse right_node)
                       (VStr (right_operand self other is_left))
                       (right_operand self other is_left)]), fr).
Proof.
  intros A L R. rewrite (add_precise self other is_left fr A).
  unfold bind, lift. rewrite (decompose_other _ _ fr L).
  rewrite (decompose_other _ _ fr R).
  rewrite F_with_parts_eq; [reflexivity |].
  simpl. now rewrite append_nil_r.
Qed.


(** C1.  Explicit parts that do not join to the text make the
    constructor raise its [AssertionError]; and whatever construction
    (with or without explicit parts), [flatten], [lstrip], [rstrip],
    [strip] or a concatenation returns is an [F] whose text is the join
    of what its parts show. *)
Theorem reconstruction_invariant :
  (forall s ps fr,
      text s <> join ps ->
      new s (Some ps) fr = (Raise AssertionError, fr, [])) /\
  (forall s parts fr r fr' ws,
      new s parts fr = (Ok r, fr', ws) -> reconstructs r) /\
  (forall x r, flatten x = Ok r -> reconstructs r) /\
  (forall sd chars x r,
      is_F x = true -> _strip sd chars x = Ok r -> reconstructs r) /\
  (forall chars x r,
      is_F x = true -> strip chars x = Ok r -> reconstructs r) /\
  (forall self other is_left fr r fr',
      add self other is_left fr = (Ok r, fr') -> reconstructs r).
Proof.
  repeat apply conj.
  - intros s ps fr NE. simpl. now rewrite F_with_parts_neq.
  - intros s parts fr r fr' ws. apply new_reconstructs.
  - intros x r H. now apply flatten_reconstructs in H.
  - intros sd chars x r HF H.
    now apply (_strip_returns_F sd chars x HF) in H.
  - intros chars x r HF H. apply strip_inv in H as (y & L & R).
    apply (_strip_returns_F Leading chars x HF) in L as [[HFy _] _].
    now apply (_strip_returns_F Trailing chars y HFy) in R.
  - intros self other is_left fr r fr' H. now apply add_reconstructs in H.
Qed.
End CallSiteFacts.

(** ** The statements at the sample call sites *)

Lemma new_without_node_witness :
  F_new Demo.unparse (Demo.eval_source Demo.no_values)
        (Demo.eval_code Demo.no_values) (fun _ => None)
        (Str "hello 3") None 0
  = (Ok (FStr "hello 3" [PStr (Str "hello 3")]), 0,
     [Warn UserWarning "Couldn't get source node of F() call"]) /\
  filter (has_category NoSourceAvailableWarning)
         (snd (F_new Demo.unparse (Demo.eval_source Demo.no_values)
                     (Demo.eval_code Demo.no_values) (fun _ => None)
                     (Str "hello 3") None 0)) = [].
Proof.
  apply (@new_without_node Demo.Frame Demo.unparse
           (Demo.eval_source Demo.no_values) (Demo.eval_code Demo.no_values)
           (fun _ => None) (Str "hello 3") 0).
  reflexivity.
Defined.




Lemma reconstruction_invariant_witness :
  F_new Demo.unparse (Demo.eval_source Demo.no_values)
        (Demo.eval_code Demo.no_values) (fun _ => None)
        (Str "ab") (Some [PStr (Str "a")]) 0
  = (Raise AssertionError, 0, []) /\
  reconstructs (FStr "hello" [PStr (Str "hello")]).
Proof.
  destruct (@reconstruction_invariant Demo.Frame Demo.unparse
              (Demo.eval_source Demo.no_values)
              (Demo.eval_code Demo.no_values) (fun _ => None))
    as (A & _ & _ & _ & S0 & _).
  split.
  - apply A. simpl. discriminate.
  - apply (S0 None Sample.padded_hello); reflexivity.
Defined.

(** C6 at an input where the code departs from it.  In
    [F(f"hello {(1) + 2}")] the embedded expression is written [(1) + 2];
    the [source] of its part is what [ast.unparse] prints for the tree,
    ["1 + 2"]. *)
Theorem decompose_source_is_unparsed :
  _parts_from_node Demo.unparse (Demo.eval_source Demo.sum_values)
                   (Demo.eval_code Demo.sum_values) Demo.hello_sum None 0
  = (Ok [PStr (Str "hello "); PFValue "1 + 2" (VOther "3") (Str "3")], 2)
  /\ "1 + 2" <> "(1) + 2".
Proof. split; [reflexivity | discriminate]. Qed.

(** * Further properties *)

(** ** Deep copies *)

Lemma deep_FStr (t : string) (ps : list part) :
  deep_reconstructs (FStr t ps)
  = String.eqb t (join ps) && forallb deep_part ps.
Proof. reflexivity. Qed.

Section DeepcopyFacts.
Variable copy_other : string -> res string.
Hypothesis copy_other_id : forall o, copy_other o = Ok o.

Lemma deepcopy_part_faithful (p : part) :
  part_holds (faithful_copy (deepcopy copy_other) deep_reconstructs) p ->
  faithful_copy (deepcopy_part (deepcopy copy_other) copy_other) deep_part p.
Proof.
  unfold faithful_copy.
  destruct p as [s|source [v|o] formatted]; simpl.
  - intros (A & B & C). repeat split.
    + intro G. now rewrite (A G).
    + destruct (deepcopy copy_other s) as [s'|e] eqn:E; simpl in H;
        [| discriminate].
      inversion H; subst. now destruct (B _ eq_refl) as [-> _].
    + destruct (deepcopy copy_other s) as [s'|e] eqn:E; simpl in H;
        [| discriminate].
      now destruct (B _ eq_refl).
    + intros e H.
      destruct (deepcopy copy_other s) as [s'|e'] eqn:E; simpl in H;
        [discriminate |].
      inversion H; subst. now apply C.
  - intros ((Av & Bv & Cv) & (Af & Bf & Cf)). repeat split.
    + intro G. apply andb_prop in G as [Gv Gf].
      now rewrite (Av Gv), (Af Gf).
    + destruct (deepcopy copy_other v) as [v'|e] eqn:Ev; simpl in H;
        [| discriminate].
      destruct (deepcopy copy_other formatted) as [f'|e] eqn:Ef; simpl in H;
        [| discriminate].
      inversion H; subst.
      destruct (Bv _ eq_refl) as [-> _]. now destruct (Bf _ eq_refl) as [-> _].
    + destruct (deepcopy copy_other v) as [v'|e] eqn:Ev; simpl in H;
        [| discriminate].
      destruct (deepcopy copy_other formatted) as [f'|e] eqn:Ef; simpl in H;
        [| discriminate].
      destruct (Bv _ eq_refl) as [_ ->]. now destruct (Bf _ eq_refl) as [_ ->].
    + intros e H.
      destruct (deepcopy copy_other v) as [v'|e'] eqn:Ev; simpl in H.
      * destruct (deepcopy copy_other formatted) as [f'|e''] eqn:Ef;
          simpl in H; [discriminate |].
        inversion H; subst. now apply Cf.
      * inversion H; subst. now apply Cv.
  - intros (_ & (Af & Bf & Cf)). rewrite copy_other_id. simpl.
    repeat split.
    + intro G. now rewrite (Af G).
    + destruct (deepcopy copy_other formatted) as [f'|e] eqn:Ef; simpl in H;
        [| discriminate].
      inversion H; subst. now destruct (Bf _ eq_refl) as [-> _].
    + destruct (deepcopy copy_other formatted) as [f'|e] eqn:Ef; simpl in H;
        [| discriminate].
      now destruct (Bf _ eq_refl).
    + intros e H.
      destruct (deepcopy copy_other formatted) as [f'|e'] eqn:Ef; simpl in H;
        [discriminate |].
      inversion H; subst. now apply Cf.
Qed.

Lemma deepcopy_tuple_faithful (ps : list part) :
  Forall (part_holds (faithful_copy (deepcopy copy_other) deep_reconstructs))
         ps ->
  faithful_copy (deepcopy_tuple (deepcopy copy_other) copy_other)
                (forallb deep_part) ps.
Proof.
  induction 1 as [|p ps Hp _ (A & B & C)].
  - unfold faithful_copy; simpl. repeat split; try discriminate.
    + now inversion H.
  - apply deepcopy_part_faithful in Hp as (Ap & Bp & Cp).
    unfold faithful_copy; simpl. repeat split.
    + intro G. apply andb_prop in G as [Gp Gps].
      now rewrite (Ap Gp), (A Gps).
    + destruct (deepcopy_part _ _ p) as [p'|e] eqn:Ep; simpl in H;
        [| discriminate].
      destruct (deepcopy_tuple _ _ ps) as [ps'|e] eqn:Eps; simpl in H;
        [| discriminate].
      inversion H; subst.
      destruct (Bp _ eq_refl) as [-> _]. now destruct (B _ eq_refl) as [-> _].
    + destruct (deepcopy_part _ _ p) as [p'|e] eqn:Ep; simpl in H;
        [| discriminate].
      destruct (deepcopy_tuple _ _ ps) as [ps'|e] eqn:Eps; simpl in H;
        [| discriminate].
      destruct (Bp _ eq_refl) as [_ ->]. now destruct (B _ eq_refl) as [_ ->].
    + intros e H.
      destruct (deepcopy_part _ _ p) as [p'|e'] eqn:Ep; simpl in H.
      * destruct (deepcopy_tuple _ _ ps) as [ps'|e''] eqn:Eps; simpl in H;
          [discriminate |].
        inversion H; subst. now apply C.
      * inversion H; subst. now apply Cp.
Qed.

Lemma deepcopy_faithful (x : pystr) :
  faithful_copy (deepcopy copy_other) deep_reconstructs x.
Proof.
  induction x as [t|t ps IH] using pystr_nested_ind.
  - unfold faithful_copy; simpl. repeat split; try discriminate.
    now inversion H.
  - apply deepcopy_tuple_faithful in IH as (A & B & C).
    unfold faithful_copy. rewrite deep_FStr. simpl. repeat split.
    + intro G. apply andb_prop in G as [Gt Gps].
      apply String.eqb_eq in Gt. rewrite (A Gps). simpl.
      now apply (F_with_parts_eq (Str t)).
    + destruct (deepcopy_tuple _ _ ps) as [ps'|e] eqn:Eps; simpl in H;
        [| discriminate].
      destruct (B _ eq_refl) as [-> _].
      now apply F_with_parts_ok in H as [-> _].
    + destruct (deepcopy_tuple _ _ ps) as [ps'|e] eqn:Eps; simpl in H;
        [| discriminate].
      destruct (B _ eq_refl) as [-> ->].
      apply F_with_parts_ok in H as [_ E]. simpl in E.
      rewrite andb_true_r. now apply String.eqb_eq.
    + intros e H.
      destruct (deepcopy_tuple _ _ ps) as [ps'|e'] eqn:Eps; simpl in H.
      * unfold F_with_parts in H.
        destruct (String.eqb _ _); [discriminate | now inversion H].
      * inversion H; subst. now apply C.
Qed.

(** X1.  When objects other than strings are copied to equal objects, a
    deep copy of a string returns exactly when the string and every [F]
    inside it satisfy I1; it then returns an equal string, and raises the
    constructor's [AssertionError] otherwise. *)
Theorem deepcopy_returns_equal (x : pystr) :
  (deep_reconstructs x = true -> __deepcopy__ copy_other x = Ok x) /\
  (forall r, __deepcopy__ copy_other x = Ok r ->
             r = x /\ deep_reconstructs x = true) /\
  (forall e, __deepcopy__ copy_other x = Raise e -> e = AssertionError).
Proof. exact (deepcopy_faithful x). Qed.
End DeepcopyFacts.

Lemma deepcopy_returns_equal_witness :
  deep_reconstructs Sample.hello_world_bang = true /\
  __deepcopy__ (fun o => Ok o) Sample.hello_world_bang
  = Ok Sample.hello_world_bang.
Proof.
  split; [reflexivity |].
  apply (@deepcopy_returns_equal (fun o => Ok o) (fun o => eq_refl)
           Sample.hello_world_bang).
  reflexivity.
Defined.

(** ** Trimming strings that are well formed at every depth *)

Section ScanRaised.
Variable method : pystr -> res pystr.

Lemma scan_first_raised_by (ps : list part) (n : nat) (e : exn) :
  scan_first method ps = (n, Raised e) ->
  exists p, In p ps /\ strip_part method p = Raise e.
Proof.
  revert n; induction ps as [|q ps IH]; simpl; intros n H.
  - discriminate.
  - destruct (strip_part method q) as [[q'|]|e'] eqn:Q.
    + discriminate.
    + destruct (scan_first method ps) as [m o] eqn:S0.
      inversion H; subst.
      destruct (IH _ eq_refl) as (p & I & R). eauto.
    + inversion H; subst. eauto.
Qed.

Lemma scan_raised_by (sd : side) (ps : list part) (n : nat) (e : exn) :
  scan method sd ps = (n, Raised e) ->
  exists p, In p ps /\ strip_part method p = Raise e.
Proof.
  destruct sd; simpl; [apply scan_first_raised_by |].
  rewrite scan_last_rev. intro H.
  destruct (scan_first method (rev ps)) as [m o] eqn:S0.
  simpl in H. inversion H; subst.
  destruct o; simpl in *; try discriminate. inversion H2; subst.
  apply scan_first_raised_by in S0 as (p & I & R).
  exists p. split; [now apply in_rev | exact R].
Qed.

Lemma scan_found_from (sd : side) (ps ps' : list part) (n : nat) :
  scan method sd ps = (n, Found ps') ->
  exists p p',
    In p ps /\ strip_part method p = Ok (Some p') /\
    forall q, In q ps' -> q = p' \/ In q ps.
Proof.
  destruct sd; simpl; intro H.
  - apply scan_first_found in H as (rm & p & p' & rest & -> & -> & _ & Hp & _).
    exists p, p'. split; [apply in_or_app; right; now left |].
    split; [exact Hp |].
    intros q [<-|I]; [now left | right].
    apply in_or_app; right; now right.
  - apply scan_last_found in H as (k & p & p' & rm & -> & -> & _ & Hp & _).
    exists p, p'. split; [apply in_or_app; right; now left |].
    split; [exact Hp |].
    intros q I. apply in_app_or in I as [I|[<-|[]]]; [right | now left].
    apply in_or_app; now left.
Qed.
End ScanRaised.

Lemma strip_part_deep (method : pystr -> res pystr) (p : part) :
  part_holds (fun s => deep_reconstructs s = true ->
                       (forall r, method s = Ok r ->
                                  deep_reconstructs r = true) /\
                       (forall e, method s = Raise e -> e = IndexError)) p ->
  deep_part p = true ->
  (forall p', strip_part method p = Ok (Some p') -> deep_part p' = true) /\
  (forall e, strip_part method p = Raise e -> e = IndexError).
Proof.
  unfold strip_part.
  destruct p as [s|source value formatted]; simpl.
  - intros H D. destruct (H D) as [A B]. split.
    + intros p' E. destruct (method s) as [s'|e] eqn:M; simpl in E;
        [| discriminate].
      destruct (truthy s'); inversion E; subst. simpl. now apply A.
    + intros e E. destruct (method s) as [s'|e'] eqn:M; simpl in E.
      * destruct (truthy s'); discriminate.
      * inversion E; subst. now apply B.
  - intros [_ H] D. apply andb_prop in D as [Dv Df].
    destruct (H Df) as [A B]. split.
    + intros p' E. destruct (method formatted) as [s'|e] eqn:M; simpl in E;
        [| discriminate].
      destruct (truthy s'); inversion E; subst. simpl.
      rewrite Dv. now apply A.
    + intros e E. destruct (method formatted) as [s'|e'] eqn:M; simpl in E.
      * destruct (truthy s'); discriminate.
      * inversion E; subst. now apply B.
Qed.

Lemma str_method_deep (sd : side) (chars : option string) (x : pystr) :
  deep_reconstructs x = true ->
  (forall r, str_method sd chars x = Ok r -> deep_reconstructs r = true) /\
  (forall e, str_method sd chars x = Raise e -> e = IndexError).
Proof.
  induction x as [t|t ps IH] using pystr_nested_ind; intro D.
  - simpl. split; [intros r H; now inversion H | discriminate].
  - rewrite deep_FStr in D. apply andb_prop in D as [Dt Dps].
    apply String.eqb_eq in Dt. symmetry in Dt.
    rewrite forallb_forall in Dps. rewrite Forall_forall in IH.
    destruct (scan (str_method sd chars) sd ps) as [n [ps'| |e]] eqn:S0.
    + assert (R := @_strip_found sd chars t ps ps' n Dt S0).
      unfold _strip in R. rewrite R.
      split; [| discriminate]. intros r H. inversion H; subst r.
      rewrite deep_FStr. apply andb_true_intro. split.
      * apply String.eqb_eq. apply scan_found_join in S0. congruence.
      * apply forallb_forall. intros q I.
        apply scan_found_from in S0 as (p & p' & Ip & Hp & Hq).
        destruct (Hq _ I) as [-> | I']; [| now apply Dps].
        now apply (strip_part_deep _ p (IH _ Ip) (Dps _ Ip)).
    + simpl. rewrite S0. simpl.
      split; [discriminate | intros e H; now inversion H].
    + simpl. rewrite S0. simpl.
      split; [discriminate |]. intros e' H. inversion H; subst e'.
      apply scan_raised_by in S0 as (p & Ip & Hp).
      now apply (strip_part_deep _ p (IH _ Ip) (Dps _ Ip)).
Qed.

(** X2.  On a string that is well formed at every depth, [lstrip],
    [rstrip] and [strip] return strings that are well formed at every
    depth, and the only exception they raise is [IndexError]: the
    assertion of the constructor never fails in them. *)
Theorem strip_keeps_deep_invariant (chars : option string) (x : pystr) :
  deep_reconstructs x = true ->
  (forall sd r, _strip sd chars x = Ok r -> deep_reconstructs r = true) /\
  (forall sd e, _strip sd chars x = Raise e -> e = IndexError) /\
  (forall r, strip chars x = Ok r -> deep_reconstructs r = true) /\
  (forall e, strip chars x = Raise e -> e = IndexError).
Proof.
  intro D. repeat apply conj.
  - intros sd r H. now apply (str_method_deep sd chars x D).
  - intros sd e H. now apply (str_method_deep sd chars x D).
  - intros r H. apply strip_inv in H as (y & L & R).
    apply (str_method_deep Leading chars x D) in L.
    now apply (str_method_deep Trailing chars y L).
  - intros e H. unfold strip in H.
    destruct (lstrip chars x) as [y|e'] eqn:L; simpl in H.
    + apply (str_method_deep Leading chars x D) in L.
      now apply (str_method_deep Trailing chars y L).
    + inversion H; subst. now apply (str_method_deep Leading chars x D).
Qed.

Lemma strip_keeps_deep_invariant_witness :
  deep_reconstructs Sample.hello_world_bang = true /\
  deep_reconstructs
    (FStr "hello world"
       [PFValue "s" (VStr Sample.hello_world) Sample.hello_world]) = true.
Proof.
  split; [reflexivity |].
  destruct (@strip_keeps_deep_invariant (Some "!") Sample.hello_world_bang
              eq_refl) as (_ & _ & S0 & _).
  apply S0. reflexivity.
Defined.

(** ** Flattening strings that are well formed at every depth *)

Lemma deep_parts_of (r : pystr) :
  deep_reconstructs r = true -> forallb deep_part (parts_of r) = true.
Proof.
  destruct r as [t|t ps]; [reflexivity |].
  rewrite deep_FStr. intro H. now apply andb_prop in H as [_ H].
Qed.

Lemma forallb_deep_app (a b : list part) :
  forallb deep_part a = true -> forallb deep_part b = true ->
  forallb deep_part (a ++ b) = true.
Proof. intros A B. rewrite forallb_app. now rewrite A, B. Qed.

Lemma flatten_loop_deep (ps : list part) :
  Forall (part_holds (fun x => deep_reconstructs x = true ->
                               forall r, flatten x = Ok r ->
                                         deep_reconstructs r = true)) ps ->
  forallb deep_part ps = true ->
  forall acc out,
    forallb deep_part acc = true ->
    flatten_loop flatten ps acc = Ok out ->
    forallb deep_part out = true.
Proof.
  induction 1 as [|p ps Hp _ IH]; simpl; intros D acc out Dacc H.
  - now inversion H; subst.
  - apply andb_prop in D as [Dp Dps]. specialize (IH Dps).
    destruct p as [[t|t ps']|source [[t|t ps']|o] formatted];
      unfold part_holds in Hp;
      try (solve [eapply IH; [| exact H];
                  apply forallb_deep_app; [exact Dacc |];
                  cbn [forallb]; now rewrite Dp]).
    + destruct (flatten (FStr t ps')) as [r|e] eqn:E; simpl in H;
        [| discriminate].
      eapply IH; [| exact H].
      apply forallb_deep_app; [exact Dacc |].
      apply deep_parts_of. now apply (Hp Dp).
    + destruct Hp as [Hv _]. simpl in Dp.
      apply andb_prop in Dp as [Dv Df].
      destruct (flatten (FStr t ps')) as [r|e] eqn:E; simpl in H;
        [| discriminate].
      eapply IH; [| exact H].
      apply forallb_deep_app; [exact Dacc |].
      apply deep_parts_of. now apply (Hv Dv).
Qed.

Lemma flatten_deep (x : pystr) :
  deep_reconstructs x = true ->
  forall r, flatten x = Ok r -> deep_reconstructs r = true.
Proof.
  induction x as [t|t ps IH] using pystr_nested_ind; intros D r H.
  - discriminate.
  - rewrite deep_FStr in D. apply andb_prop in D as [_ Dps].
    apply flatten_inv in H as (t' & ps' & out & E & L & -> & J).
    inversion E; subst t' ps'.
    rewrite deep_FStr. apply andb_true_intro. split.
    + apply String.eqb_eq. now symmetry.
    + apply (flatten_loop_deep IH Dps [] eq_refl L).
Qed.

Lemma flatten_loop_raises (ps : list part) :
  Forall (part_holds (fun x => is_F x = true ->
                               forall e, flatten x = Raise e ->
                                         e = AssertionError)) ps ->
  forall acc e,
    flatten_loop flatten ps acc = Raise e -> e = AssertionError.
Proof.
  induction 1 as [|p ps Hp _ IH]; simpl; intros acc e H.
  - discriminate.
  - destruct p as [[t|t ps']|source [[t|t ps']|o] formatted];
      unfold part_holds in Hp; try (now apply (IH _ _ H)).
    + destruct (flatten (FStr t ps')) as [r|e'] eqn:E; simpl in H.
      * now apply (IH _ _ H).
      * inversion H; subst. now apply (Hp eq_refl).
    + destruct Hp as [Hv _].
      destruct (flatten (FStr t ps')) as [r|e'] eqn:E; simpl in H.
      * now apply (IH _ _ H).
      * inversion H; subst. now apply (Hv eq_refl).
Qed.

Lemma flatten_raises (x : pystr) :
  is_F x = true -> forall e, flatten x = Raise e -> e = AssertionError.
Proof.
  induction x as [t|t ps IH] using pystr_nested_ind; intros HF e H.
  - discriminate.
  - simpl in H.
    destruct (flatten_loop flatten ps []) as [out|e'] eqn:L; simpl in H.
    + unfold F_with_parts in H.
      destruct (String.eqb _ _); [discriminate | now inversion H].
    + inversion H; subst. now apply (flatten_loop_raises IH [] L).
Qed.

(** X3.  [flatten] on an [F] raises nothing but the constructor's
    [AssertionError], and on a string that is well formed at every depth
    what it returns is well formed at every depth. *)
Theorem flatten_keeps_deep_invariant (x : pystr) :
  (is_F x = true ->
   forall e, flatten x = Raise e -> e = AssertionError) /\
  (deep_reconstructs x = true ->
   forall r, flatten x = Ok r -> deep_reconstructs r = true).
Proof.
  split.
  - apply flatten_raises.
  - apply flatten_deep.
Qed.

Lemma flatten_keeps_deep_invariant_witness :
  is_F Sample.padded_hi = true /\
  flatten Sample.padded_hi = Raise AssertionError /\
  deep_reconstructs Sample.hello_world_bang = true /\
  deep_reconstructs
    (FStr "hello world!"
       [PStr (Str "hello "); PStr (Str "world"); PStr (Str "!")]) = true.
Proof.
  split; [reflexivity | split; [reflexivity | split; [reflexivity |]]].
  destruct (flatten_keeps_deep_invariant Sample.hello_world_bang) as [_ D].
  apply (D eq_refl). reflexivity.
Defined.

(** ** Trimming strings whose parts show exact strings *)

Lemma _strip_plain_result (sd : side) (chars : option string) (t : string)
  (ps : list part) (r : pystr) :
  Forall plain_part ps ->
  _strip sd chars (FStr t ps) = Ok r ->
  exists ps', r = FStr (builtin_strip sd chars t) ps' /\
              Forall plain_part ps' /\ join ps' = builtin_strip sd chars t.
Proof.
  intros Hp H. apply _strip_inv in H as (n & ps' & S0 & -> & J).
  exists ps'. repeat split; auto.
  assert (P := scan_plain sd chars Hp). now rewrite S0 in P.
Qed.

Lemma strip_part_stable (sd : side) (chars : option string) (p : part) :
  plain_part p ->
  builtin_strip sd chars (shown p) = shown p ->
  shown p <> "" ->
  strip_part (str_method sd chars) p = Ok (Some p).
Proof.
  unfold strip_part.
  destruct p as [[a|]|source value [a|]]; simpl; try contradiction;
    intros _ -> NE; unfold truthy; simpl;
    (destruct a; [now contradiction NE | reflexivity]).
Qed.

Lemma lstrip_stable (chars : option string) (t : string) (p : part)
  (rest : list part) :
  join (p :: rest) = t ->
  plain_part p ->
  str_lstrip chars (shown p) = shown p ->
  shown p <> "" ->
  lstrip chars (FStr t (p :: rest)) = Ok (FStr t (p :: rest)).
Proof.
  intros J Hp St NE.
  assert (S0 : scan (str_method Leading chars) Leading (p :: rest)
               = (1, Found (p :: rest))).
  { simpl. now rewrite (@strip_part_stable Leading chars p Hp St NE). }
  unfold lstrip. rewrite (@_strip_found Leading chars t _ _ 1 J S0).
  do 2 f_equal. simpl. rewrite <- J. simpl.
  rewrite str_lstrip_app, St.
  destruct (shown p); [now contradiction NE | reflexivity].
Qed.

Lemma scan_last_stable (chars : option string) (kept : list part)
  (q : part) :
  strip_part (str_method Trailing chars) q = Ok (Some q) ->
  scan_last (str_method Trailing chars) (kept ++ [q])
  = (1, Found (kept ++ [q])%list).
Proof.
  intro Hq. induction kept as [|k kept IH]; simpl.
  - now rewrite Hq.
  - now rewrite IH.
Qed.

Lemma rstrip_stable (chars : option string) (t : string)
  (kept : list part) (q : part) :
  join (kept ++ [q]) = t ->
  plain_part q ->
  str_rstrip chars (shown q) = shown q ->
  shown q <> "" ->
  rstrip chars (FStr t (kept ++ [q])) = Ok (FStr t (kept ++ [q])).
Proof.
  intros J Hq St NE.
  assert (S0 : scan (str_method Trailing chars) Trailing (kept ++ [q])
               = (1, Found (kept ++ [q])%list)).
  { simpl. apply scan_last_stable.
    now apply (@strip_part_stable Trailing chars q Hq St NE). }
  unfold rstrip. rewrite (@_strip_found Trailing chars t _ _ 1 J S0).
  do 2 f_equal. simpl. rewrite <- J, join_app. simpl.
  rewrite append_nil_r, str_rstrip_app, St.
  destruct (shown q); [now contradiction NE | reflexivity].
Qed.

Lemma Forall_plain_inv_app (a b : list part) :
  Forall plain_part (a ++ b) -> Forall plain_part a /\ Forall plain_part b.
Proof. apply Forall_app. Qed.

Lemma lstrip_plain_fixed (chars : option string) (t : string)
  (ps : list part) (y : pystr) :
  Forall plain_part ps ->
  lstrip chars (FStr t ps) = Ok y ->
  lstrip chars y = Ok y.
Proof.
  intros Hp L.
  destruct (@_strip_plain_result Leading chars t ps y Hp L)
    as (ps' & -> & Hp' & J).
  apply lstrip_shape in L as (rm & p & p' & rest & _ & E & _ & (Sh & NE & _));
    [| reflexivity].
  simpl in E. subst ps'. inversion Hp' as [|? ? Hp0 _]; subst.
  apply lstrip_stable; auto.
  simpl in Sh. rewrite Sh. apply str_lstrip_idem.
Qed.

Lemma rstrip_plain_fixed (chars : option string) (t : string)
  (ps : list part) (y : pystr) :
  Forall plain_part ps ->
  rstrip chars (FStr t ps) = Ok y ->
  rstrip chars y = Ok y.
Proof.
  intros Hp R.
  destruct (@_strip_plain_result Trailing chars t ps y Hp R)
    as (ps' & -> & Hp' & J).
  apply rstrip_shape in R as (k & p & p' & rm & _ & E & _ & (Sh & NE & _));
    [| reflexivity].
  simpl in E. subst ps'. apply Forall_plain_inv_app in Hp' as [_ Hq].
  inversion Hq as [|? ? Hq0 _]; subst.
  apply rstrip_stable; auto.
  simpl in Sh. rewrite Sh. apply str_rstrip_idem.
Qed.

Lemma strip_plain_fixed (chars : option string) (t : string)
  (ps : list part) (r : pystr) :
  Forall plain_part ps ->
  strip chars (FStr t ps) = Ok r ->
  lstrip chars r = Ok r /\ rstrip chars r = Ok r /\ strip chars r = Ok r.
Proof.
  intros Hp H. apply strip_inv in H as (y & L & R).
  destruct (@_strip_plain_result Leading chars t ps y Hp L)
    as (ps1 & -> & Hp1 & J1).
  assert (Rfix := @rstrip_plain_fixed chars _ ps1 r Hp1 R).
  destruct (@_strip_plain_result Trailing chars _ ps1 r Hp1 R)
    as (ps2 & -> & Hp2 & J2).
  apply lstrip_shape in L as (rm & p & p' & rest & _ & E1 & _ & (Sh1 & NE1 & _));
    [| reflexivity].
  apply rstrip_shape in R as (k & a & a' & rm' & E2 & E3 & _ & (Sh2 & NE2 & _));
    [| reflexivity].
  simpl in E1, E2, E3, Sh1, Sh2.
  assert (E12 : p' :: rest = (k ++ a :: rm')%list) by congruence.
  clear E1 E2. subst ps2.
  assert (Lfix : lstrip chars
                   (FStr (builtin_strip Trailing chars
                            (builtin_strip Leading chars t)) (k ++ [a']))
                 = Ok (FStr (builtin_strip Trailing chars
                               (builtin_strip Leading chars t)) (k ++ [a']))).
  { destruct k as [|k0 k]; simpl in E12; inversion E12; subst.
    - simpl. inversion Hp2 as [|? ? Ha _]; subst.
      apply lstrip_stable; auto.
      rewrite Sh2, Sh1, str_lstrip_rstrip. now rewrite str_lstrip_idem.
    - simpl. inversion Hp2 as [|? ? Hp0 _]; subst.
      apply lstrip_stable; auto.
      rewrite Sh1. apply str_lstrip_idem. }
  split; [exact Lfix | split; [exact Rfix |]].
  unfold strip. rewrite Lfix. exact Rfix.
Qed.

(** X4.  On a string that satisfies I1 and whose parts show exact
    strings, [strip] returns exactly when the text does not trim to the
    empty string; what it returns has the trimmed text, satisfies I1 and
    again has parts that show exact strings. *)
Theorem strip_plain_returns_iff (chars : option string) (t : string)
  (ps : list part) :
  join ps = t ->
  Forall plain_part ps ->
  ((exists r, strip chars (FStr t ps) = Ok r) <-> str_strip chars t <> "") /\
  (forall r, strip chars (FStr t ps) = Ok r ->
             text r = str_strip chars t /\ reconstructs r /\
             Forall plain_part (parts_of r)).
Proof.
  intros I1 Hp. split; [split |].
  - intros [r H].
    destruct (@strip_text chars (FStr t ps) r eq_refl H) as [_ E].
    destruct (@strip_ends_nonempty chars (FStr t ps) r eq_refl H) as [NE _].
    simpl in E. congruence.
  - intro NE.
    destruct (strip_plain_returns chars I1 Hp NE) as (ps' & H & _). eauto.
  - intros r H.
    destruct (@strip_text chars (FStr t ps) r eq_refl H) as [Rr E].
    repeat split; try apply Rr; auto.
    apply strip_inv in H as (y & L & R).
    destruct (@_strip_plain_result Leading chars t ps y Hp L)
      as (ps1 & -> & Hp1 & _).
    now destruct (@_strip_plain_result Trailing chars _ ps1 r Hp1 R)
      as (ps2 & -> & Hp2 & _).
Qed.

Lemma strip_plain_returns_iff_witness :
  join (parts_of Sample.padded_hello) = "   hello   " /\
  Forall plain_part (parts_of Sample.padded_hello) /\
  exists r, strip None Sample.padded_hello = Ok r.
Proof.
  assert (P : Forall plain_part (parts_of Sample.padded_hello))
    by (repeat constructor).
  split; [reflexivity | split; [exact P |]].
  destruct (@strip_plain_returns_iff None "   hello   "
              (parts_of Sample.padded_hello) eq_refl P) as [[_ T] _].
  apply T. simpl. discriminate.
Defined.

(** X5.  On a string whose parts show exact strings, what [lstrip],
    [rstrip] or [strip] returns is left as it is, parts included, by the
    same method; a result of [strip] is also left as it is by [lstrip] and
    by [rstrip]. *)
Theorem strip_plain_idempotent (chars : option string) (t : string)
  (ps : list part) (r : pystr) :
  Forall plain_part ps ->
  (lstrip chars (FStr t ps) = Ok r -> lstrip chars r = Ok r) /\
  (rstrip chars (FStr t ps) = Ok r -> rstrip chars r = Ok r) /\
  (strip chars (FStr t ps) = Ok r ->
   lstrip chars r = Ok r /\ rstrip chars r = Ok r /\ strip chars r = Ok r).
Proof.
  intro Hp. split; [| split].
  - now apply lstrip_plain_fixed.
  - now apply rstrip_plain_fixed.
  - now apply strip_plain_fixed.
Qed.

Lemma strip_plain_idempotent_witness :
  Forall plain_part (parts_of Sample.quoted_a_b) /\
  strip None Sample.quoted_a_b
  = Ok (FStr "ab" [PFValue "' a'" (VStr (Str " a")) (Str "a");
                   PStr (Str "b")]) /\
  strip None (FStr "ab" [PFValue "' a'" (VStr (Str " a")) (Str "a");
                         PStr (Str "b")])
  = Ok (FStr "ab" [PFValue "' a'" (VStr (Str " a")) (Str "a");
                   PStr (Str "b")]).
Proof.
  assert (P : Forall plain_part (parts_of Sample.quoted_a_b))
    by (repeat constructor).
  split; [exact P | split; [reflexivity |]].
  destruct (@strip_plain_idempotent None " ab " (parts_of Sample.quoted_a_b)
              (FStr "ab" [PFValue "' a'" (VStr (Str " a")) (Str "a");
                          PStr (Str "b")]) P) as (_ & _ & S0).
  now apply S0.
Defined.

(** X6.  Whenever [lstrip], [rstrip] or [strip] returns on an [F], the
    text of the result is the built-in trim of the text; trimming the
    result again gives the same text, and trimming the two ends in the
    other order gives the same text. *)
Theorem trim_text (chars : option string) (x : pystr) :
  is_F x = true ->
  (forall sd r, _strip sd chars x = Ok r ->
                text r = builtin_strip sd chars (text x)) /\
  (forall r, strip chars x = Ok r -> text r = str_strip chars (text x)) /\
  (forall r r', strip chars x = Ok r -> strip chars r = Ok r' ->
                text r' = text r) /\
  (forall y r, rstrip chars x = Ok y -> lstrip chars y = Ok r ->
               text r = str_strip chars (text x)).
Proof.
  intro HF. repeat apply conj.
  - intros sd r H. now apply (_strip_returns_F sd chars x HF) in H.
  - intros r H. now apply (strip_text chars x HF) in H.
  - intros r r' H H'.
    destruct (strip_text chars x HF H) as [[HFr _] E].
    destruct (strip_text chars r HFr H') as [_ E'].
    rewrite E', E. apply str_strip_idem.
  - intros y r R L.
    destruct (_strip_returns_F Trailing chars x HF R) as [[HFy _] Ey].
    destruct (_strip_returns_F Leading chars y HFy L) as [_ Er].
    simpl in *. rewrite Er, Ey. apply str_lstrip_rstrip.
Qed.

Lemma trim_text_witness :
  is_F Sample.padded_hello = true /\
  rstrip None Sample.padded_hello
  = Ok (FStr "   hello" [PStr (Str " "); Sample.space; PStr (Str " hello")]) /\
  lstrip None
    (FStr "   hello" [PStr (Str " "); Sample.space; PStr (Str " hello")])
  = Ok (FStr "hello" [PStr (Str "hello")]) /\
  text (FStr "hello" [PStr (Str "hello")])
  = str_strip None (text Sample.padded_hello).
Proof.
  split; [reflexivity | split; [reflexivity | split; [reflexivity |]]].
  destruct (@trim_text None Sample.padded_hello eq_refl) as (_ & _ & _ & C).
  apply (C (FStr "   hello"
              [PStr (Str " "); Sample.space; PStr (Str " hello")]));
    reflexivity.
Defined.

(** ** More on flattening *)

(** X7.  [flatten] returns an [F] unchanged when it satisfies I1 and none
    of its parts is an [F] or an [FValue] whose value is an [F]. *)
Theorem flatten_of_flat (x : pystr) :
  reconstructs x ->
  flat (parts_of x) ->
  flatten x = Ok x.
Proof.
  intros [HF I1] Hflat. destruct x as [t|t ps]; [discriminate |].
  simpl in *. rewrite (flatten_loop_of_flat Hflat). simpl.
  apply (F_with_parts_eq (Str t)). simpl. now symmetry.
Qed.

Lemma flatten_of_flat_witness :
  reconstructs Sample.padded_hello /\
  flat (parts_of Sample.padded_hello) /\
  flatten Sample.padded_hello = Ok Sample.padded_hello.
Proof.
  assert (R : reconstructs Sample.padded_hello) by (split; reflexivity).
  assert (Fl : flat (parts_of Sample.padded_hello))
    by (repeat constructor).
  split; [exact R | split; [exact Fl |]].
  exact (flatten_of_flat R Fl).
Defined.

Lemma flattened_operand_join (s : pystr) (ps : list part) :
  flattened_operand s = Ok ps -> join ps = text s.
Proof.
  destruct s as [t|t ps0]; simpl.
  - intro H; inversion H; subst. simpl. apply append_nil_r.
  - destruct (flatten_loop flatten ps0 []) as [out|e] eqn:L; simpl;
      [| discriminate].
    unfold F_with_parts. simpl.
    destruct (String.eqb_spec t (join out)) as [E|E]; simpl;
      [| discriminate].
    intro H; inversion H; subst. now symmetry.
Qed.

Lemma flatten_loop_operand (s : pystr) (ps acc : list part)
  (rest : list part) :
  flattened_operand s = Ok ps ->
  flatten_loop flatten (PStr s :: rest) acc
  = flatten_loop flatten rest (acc ++ ps).
Proof.
  destruct s as [t|t ps0]; simpl.
  - intro H; inversion H; reflexivity.
  - destruct (res_bind (flatten_loop flatten ps0 [])
                (fun ps1 => F_with_parts (Str t) ps1)) as [r|e];
      simpl; [| discriminate].
    intro H; inversion H; reflexivity.
Qed.

Lemma flatten_loop_operand_value (source : string) (s : pystr)
  (ps acc rest : list part) :
  is_F s = true ->
  flattened_operand s = Ok ps ->
  flatten_loop flatten (PFValue source (VStr s) s :: rest) acc
  = flatten_loop flatten rest (acc ++ ps).
Proof.
  destruct s as [t|t ps0]; [discriminate |]. simpl. intros _.
  destruct (res_bind (flatten_loop flatten ps0 [])
              (fun ps1 => F_with_parts (Str t) ps1)) as [r|e];
    simpl; [| discriminate].
  intro H; inversion H; reflexivity.
Qed.

(** ** Cancelling a common end *)

Lemma append_length (a b : string) :
  String.length (a ++ b) = String.length a + String.length b.
Proof. induction a as [|c a IH]; simpl; [reflexivity | now rewrite IH]. Qed.

Lemma append_cancel_l (a b c : string) : a ++ b = a ++ c -> b = c.
Proof.
  induction a as [|x a IH]; simpl; intro H; [exact H |].
  apply IH. now inversion H.
Qed.

Lemma append_cancel_r (a b c : string) : a ++ c = b ++ c -> a = b.
Proof.
  revert b. induction a as [|x a IH]; intros [|y b] H; simpl in H.
  - reflexivity.
  - exfalso. apply (f_equal String.length) in H. simpl in H.
    rewrite append_length in H. lia.
  - exfalso. apply (f_equal String.length) in H. simpl in H.
    rewrite append_length in H. lia.
  - inversion H; subst. f_equal. now apply IH.
Qed.

(** ** More on call sites *)

Section CallSiteMore.
Variable Frame : Type.
Variable unparse : node -> string.
Variable eval_source : string -> Frame -> res pyval * Frame.
Variable eval_code : node -> Frame -> res string * Frame.
Variable executing_node : Frame -> option node.

Local Abbreviation decompose :=
  (_parts_from_node unparse eval_source eval_code).
Local Abbreviation new := (F_new unparse eval_source eval_code executing_node).
Local Abbreviation add := (_add unparse eval_source eval_code executing_node).

(** X8.  Flattening a concatenation of two [F] operands gives the
    flattened parts of the left operand followed by those of the right
    one, whether the concatenation kept the operands as parts (no addition
    node) or wrapped each in an [FValue] (operand nodes that are plain
    expressions). *)
Theorem flatten_after_add (self other : pystr) (is_left : bool)
  (fr : Frame) (left_parts right_parts : list part) :
  is_F (left_operand self other is_left) = true ->
  is_F (right_operand self other is_left) = true ->
  flattened_operand (left_operand self other is_left) = Ok left_parts ->
  flattened_operand (right_operand self other is_left) = Ok right_parts ->
  addition_operands (executing_node fr) = None \/
  (exists left_node right_node,
      addition_operands (executing_node fr) = Some (left_node, right_node) /\
      other_expression left_node = true /\
      other_expression right_node = true) ->
  exists r,
    add self other is_left fr = (Ok r, fr) /\
    flatten r
    = Ok (FStr (text (left_operand self other is_left)
                ++ text (right_operand self other is_left))
               (left_parts ++ right_parts)).
Proof.
  intros FL FR HL HR Path.
  assert (J : join (left_parts ++ right_parts)
              = text (left_operand self other is_left)
                ++ text (right_operand self other is_left)).
  { rewrite join_app.
    now rewrite (flattened_operand_join _ HL), (flattened_operand_join _ HR). }
  destruct Path as [A | (ln & rn & A & OL & OR)].
  - eexists. split.
    + rewrite (add_fallback unparse eval_source eval_code executing_node
                 self other is_left fr A).
      rewrite F_with_parts_eq; [reflexivity |].
      simpl. now rewrite append_nil_r.
    + cbn [flatten text].
      rewrite (flatten_loop_operand _ [] _ HL).
      rewrite (flatten_loop_operand _ _ _ HR).
      cbn [flatten_loop res_bind app].
      apply (F_with_parts_eq (Str _)). simpl. now rewrite J.
  - eexists. split.
    + apply (add_other_expressions unparse eval_source eval_code
               executing_node self other is_left fr A OL OR).
    + cbn [flatten text].
      rewrite (flatten_loop_operand_value _ _ [] _ FL HL).
      rewrite (flatten_loop_operand_value _ _ _ _ FR HR).
      cbn [flatten_loop res_bind app].
      apply (F_with_parts_eq (Str _)). simpl. now rewrite J.
Qed.

(** X9.  Construction from a call [F(arg)] whose argument needs no
    evaluation: a plain expression gives one [FValue] holding the string
    itself; a string constant gives that literal as the only part when it
    is the text, and the constructor's [AssertionError] when it is not;
    another constant raises [AssertionError].  No evaluation takes place
    and no warning is issued. *)
Theorem new_from_plain_argument (s : pystr) (fr : Frame) (func arg : node) :
  executing_node fr = Some (Call func [arg]) ->
  (other_expression arg = true ->
   new s None fr
   = (Ok (FStr (text s) [PFValue (unparse arg) (VStr s) s]), fr, [])) /\
  (forall lit, arg = Constant (CStr lit) ->
     (text s = lit ->
      new s None fr = (Ok (FStr (text s) [PStr (Str lit)]), fr, [])) /\
     (text s <> lit -> new s None fr = (Raise AssertionError, fr, []))) /\
  (forall o, arg = Constant (COther o) ->
             new s None fr = (Raise AssertionError, fr, [])).
Proof.
  intro H.
  rewrite (new_from_call unparse eval_source eval_code executing_node
             s fr H).
  split; [| split].
  - intro O. rewrite (decompose_other unparse eval_source eval_code _ s fr O).
    simpl. rewrite F_with_parts_eq; [reflexivity |].
    simpl. now rewrite append_nil_r.
  - intros lit ->. simpl. split; intro E.
    + rewrite F_with_parts_eq; [reflexivity |].
      simpl. now rewrite append_nil_r.
    + rewrite F_with_parts_neq; [reflexivity |].
      simpl. now rewrite append_nil_r.
  - intros o ->. reflexivity.
Qed.

(** X10.  Construction warns in one case only, without explicit parts
    and without a node, and then once; a call node that has not exactly
    one positional argument raises [ValueError] and leaves the frame as it
    was. *)
Theorem new_warnings_and_arity (s : pystr) (parts : option (list part))
  (fr : Frame) :
  snd (new s parts fr)
  = match parts, executing_node fr with
    | None, None => [Warn UserWarning "Couldn't get source node of F() call"]
    | _, _ => []
    end /\
  (forall func args,
      parts = None ->
      executing_node fr = Some (Call func args) ->
      length args <> 1 ->
      new s parts fr = (Raise ValueError, fr, [])).
Proof.
  split.
  - unfold F_new. destruct parts as [ps|]; [reflexivity |].
    destruct (executing_node fr) as [n|]; [| reflexivity].
    destruct n; try reflexivity.
    destruct args as [|arg [|]]; try reflexivity.
    now destruct (_parts_from_node _ _ _ arg (Some s) fr).
  - intros func args -> H L.
    now apply (new_call_arity unparse eval_source eval_code executing_node
                 s fr H).
Qed.

(** X11.  A concatenation whose operand nodes are plain expressions
    (names, calls, ...) always returns, without evaluating anything: each
    operand becomes one [FValue] with the unparsed node as [source] and
    the operand as [value] and as [formatted]. *)
Theorem add_plain_operands (self other : pystr) (is_left : bool)
  (fr : Frame) (left_node right_node : node) :
  addition_operands (executing_node fr) = Some (left_node, right_node) ->
  other_expression left_node = true ->
  other_expression right_node = true ->
  add self other is_left fr
  = (Ok (FStr (text (left_operand self other is_left)
               ++ text (right_operand self other is_left))
              [PFValue (unparse left_node)
                       (VStr (left_operand self other is_left))
                       (left_operand self other is_left);
               PFValue (unparse right_node)
                       (VStr (right_operand self other is_left))
                       (right_operand self other is_left)]), fr).
Proof. apply add_other_expressions. Qed.

(** X12.  A concatenation with a string constant as one operand node and
    a plain expression as the other keeps the constant as a literal part;
    it returns when the constant is the text of that operand and raises
    the constructor's [AssertionError] when it is not. *)
Theorem add_literal_operand (self other : pystr) (is_left : bool)
  (fr : Frame) (lit : string) (n : node) :
  other_expression n = true ->
  (addition_operands (executing_node fr) = Some (Constant (CStr lit), n) ->
   (text (left_operand self other is_left) = lit ->
    add self other is_left fr
    = (Ok (FStr (lit ++ text (right_operand self other is_left))
                [PStr (Str lit);
                 PFValue (unparse n)
                         (VStr (right_operand self other is_left))
                         (right_operand self other is_left)]), fr)) /\
   (text (left_operand self other is_left) <> lit ->
    add self other is_left fr = (Raise AssertionError, fr))) /\
  (addition_operands (executing_node fr) = Some (n, Constant (CStr lit)) ->
   (text (right_operand self other is_left) = lit ->
    add self other is_left fr
    = (Ok (FStr (text (left_operand self other is_left) ++ lit)
                [PFValue (unparse n)
                         (VStr (left_operand self other is_left))
                         (left_operand self other is_left);
                 PStr (Str lit)]), fr)) /\
   (text (right_operand self other is_left) <> lit ->
    add self other is_left fr = (Raise AssertionError, fr))).
Proof.
  intro O. split; intro A;
    rewrite (add_precise unparse eval_source eval_code executing_node
               self other is_left fr A);
    unfold bind, lift;
    rewrite ?(decompose_other unparse eval_source eval_code _ _ _ O);
    cbn [_parts_from_node ret];
    rewrite ?(decompose_other unparse eval_source eval_code _ _ _ O);
    split; intro E.
  - subst lit. rewrite F_with_parts_eq; [reflexivity |].
    simpl. now rewrite append_nil_r.
  - rewrite F_with_parts_neq; [reflexivity |].
    simpl. rewrite append_nil_r. intro Z. apply E.
    now apply append_cancel_r in Z.
  - subst lit. rewrite F_with_parts_eq; [reflexivity |].
    simpl. now rewrite append_nil_r.
  - rewrite F_with_parts_neq; [reflexivity |].
    simpl. rewrite append_nil_r. intro Z. apply E.
    now apply append_cancel_l in Z.
Qed.

(** *** The decomposer on f-strings *)

Lemma joined_loop_acc_raise (values : list node) (acc : list part)
  (e : exn) (fr fr' : Frame) :
  joined_loop (fun v => decompose v None) values [] fr = (Raise e, fr') ->
  joined_loop (fun v => decompose v None) values acc fr = (Raise e, fr').
Proof.
  assert (G : forall values a b e fr fr',
             joined_loop (fun v => decompose v None) values a fr
             = (Raise e, fr') ->
             joined_loop (fun v => decompose v None) values b fr
             = (Raise e, fr')).
  { clear. induction values as [|v values IH]; simpl; intros a b e fr fr' H.
    - discriminate.
    - unfold bind in *.
      destruct (decompose v None fr) as [[pv|e'] fr1]; [| exact H].
      now apply (IH (a ++ pv)%list). }
  apply G.
Qed.

Lemma decompose_joined_step (v : node) (values : list node)
  (value : option pystr) (fr : Frame) :
  decompose (JoinedStr (v :: values)) value fr
  = match decompose v None fr with
    | (Ok pv, fr1) =>
        match decompose (JoinedStr values) None fr1 with
        | (Ok ps, fr2) => (Ok (pv ++ ps)%list, fr2)
        | (Raise e, fr2) => (Raise e, fr2)
        end
    | (Raise e, fr1) => (Raise e, fr1)
    end.
Proof.
  destruct (decompose v None fr) as [[pv|e] fr1] eqn:Hv.
  - destruct (decompose (JoinedStr values) None fr1) as [[ps|e] fr2] eqn:Hs.
    + eapply decompose_joined_cons; eassumption.
    + simpl in *. unfold bind at 1. rewrite Hv. simpl.
      now apply joined_loop_acc_raise.
  - eapply decompose_joined_raise; eassumption.
Qed.

(** X13.  The parts of an f-string are the parts of its first child
    followed by the parts of the f-string of the other children, which
    are decomposed in the frame the first child left; the first exception
    ends the decomposition, and no parts are returned. *)
Theorem decompose_joined_sequence (v : node) (values : list node)
  (value : option pystr) (fr : Frame) :
  decompose (JoinedStr (v :: values)) value fr
  = match decompose v None fr with
    | (Ok pv, fr1) =>
        match decompose (JoinedStr values) None fr1 with
        | (Ok ps, fr2) => (Ok (pv ++ ps)%list, fr2)
        | (Raise e, fr2) => (Raise e, fr2)
        end
    | (Raise e, fr1) => (Raise e, fr1)
    end.
Proof. apply decompose_joined_step. Qed.

Lemma decompose_needs_value (n : node) (fr : Frame) :
  needs_value n = true -> decompose n None fr = (Raise AssertionError, fr).
Proof. destruct n as [[|]| | | | | | |]; simpl; try discriminate; reflexivity. Qed.

Lemma decompose_fstring_child (n : node) (value : option pystr)
  (fr fr' : Frame) (ps : list part) :
  fstring_child n = true ->
  decompose n value fr = (Ok ps, fr') -> length ps = 1.
Proof.
  destruct n as [[s|o]| |v c f| | | | |]; simpl; try discriminate; intros _.
  - unfold ret. intro H; now inversion H.
  - unfold bind.
    destruct (eval_source (unparse v) fr) as [[val|e] fr1]; [| discriminate].
    destruct (eval_code _ fr1) as [[t|e] fr2]; [| discriminate].
    unfold ret. intro H; now inversion H.
Qed.

(** X14.  An f-string whose children are string constants and embedded
    expressions decomposes, when it does, into one part for each child;
    an f-string that has any other plain node or a constant that is not a
    string among its children never decomposes. *)
Theorem decompose_joined_children (values : list node)
  (value : option pystr) (fr : Frame) :
  (forallb fstring_child values = true ->
   forall ps fr', decompose (JoinedStr values) value fr = (Ok ps, fr') ->
                  length ps = length values) /\
  (forall c, In c values -> needs_value c = true ->
             forall ps fr',
               decompose (JoinedStr values) value fr <> (Ok ps, fr')).
Proof.
  split.
  - revert value fr.
    induction values as [|v values IH]; intros value fr C ps fr' H.
    + simpl in H. unfold ret in H. now inversion H.
    + simpl in C. apply andb_prop in C as [Cv Cs].
      rewrite decompose_joined_step in H.
      destruct (decompose v None fr) as [[pv|e] fr1] eqn:Hv;
        [| discriminate].
      destruct (decompose (JoinedStr values) None fr1) as [[ps0|e] fr2]
        eqn:Hs; [| discriminate].
      inversion H; subst. rewrite length_app.
      rewrite (decompose_fstring_child v None fr Cv Hv).
      simpl. f_equal. eapply IH; eassumption.
  - revert value fr.
    induction values as [|v values IH]; intros value fr c I N ps fr' H.
    + destruct I.
    + rewrite decompose_joined_step in H.
      destruct I as [<- | I].
      * now rewrite (decompose_needs_value v fr N) in H.
      * destruct (decompose v None fr) as [[pv|e] fr1]; [| discriminate].
        destruct (decompose (JoinedStr values) None fr1) as [[ps0|e] fr2]
          eqn:Hs; [| discriminate].
        now apply (IH None fr1 c I N ps0 fr2).
Qed.

(** *** Well-formedness at every depth *)

Lemma F_with_parts_deep (s : pystr) (ps : list part) (r : pystr) :
  forallb deep_part ps = true ->
  F_with_parts s ps = Ok r -> deep_reconstructs r = true.
Proof.
  intros D H. apply F_with_parts_ok in H as [-> E].
  rewrite deep_FStr, D, andb_true_r. now apply String.eqb_eq.
Qed.

Lemma joined_loop_deep (values : list node) :
  Forall (fun n => forall value fr ps fr',
              (forall s, value = Some s -> deep_reconstructs s = true) ->
              decompose n value fr = (Ok ps, fr') ->
              forallb deep_part ps = true) values ->
  forall acc fr ps fr',
    forallb deep_part acc = true ->
    joined_loop (fun v => decompose v None) values acc fr = (Ok ps, fr') ->
    forallb deep_part ps = true.
Proof.
  induction 1 as [|v values Hv _ IH]; simpl; intros acc fr ps fr' D H.
  - unfold ret in H. now inversion H; subst.
  - unfold bind in H.
    destruct (decompose v None fr) as [[pv|e] fr1] eqn:E; [| discriminate].
    apply (IH _ _ _ _ (forallb_deep_app _ _ D
                         (Hv None fr pv fr1 ltac:(discriminate) E)) H).
Qed.

Lemma decompose_deep (n : node) :
  sound_values eval_source ->
  forall value fr ps fr',
    (forall s, value = Some s -> deep_reconstructs s = true) ->
    decompose n value fr = (Ok ps, fr') ->
    forallb deep_part ps = true.
Proof.
  intro Sound.
  induction n as [values IH|n NJ] using node_joined_ind;
    intros value fr ps fr' Dv H.
  - simpl in H. now apply (joined_loop_deep IH [] fr eq_refl H).
  - destruct n as [[s|o]| |v c f| | | | |]; simpl in H;
      try discriminate;
      try (destruct value as [s|]; [| discriminate];
           unfold ret in H; inversion H; subst; simpl;
           now rewrite (Dv s eq_refl)).
    + unfold ret in H. now inversion H.
    + unfold bind in H.
      destruct (eval_source (unparse v) fr) as [[val|e] fr1] eqn:Es;
        [| discriminate].
      destruct (eval_code _ fr1) as [[t|e] fr2]; [| discriminate].
      unfold ret in H. inversion H; subst. simpl.
      now rewrite (Sound _ _ _ _ Es).
Qed.

(** X15.  When the evaluator returns values that are well formed at
    every depth, so is every string that construction or concatenation
    returns from a string, operands and explicit parts that are. *)
Theorem construction_keeps_deep_invariant :
  sound_values eval_source ->
  (forall s parts fr r fr' ws,
      deep_reconstructs s = true ->
      (forall ps, parts = Some ps -> forallb deep_part ps = true) ->
      new s parts fr = (Ok r, fr', ws) ->
      deep_reconstructs r = true) /\
  (forall self other is_left fr r fr',
      deep_reconstructs self = true ->
      deep_reconstructs other = true ->
      add self other is_left fr = (Ok r, fr') ->
      deep_reconstructs r = true).
Proof.
  intro Sound. split.
  - intros s parts fr r fr' ws Ds Dp. unfold F_new.
    destruct parts as [ps|].
    + intro H; inversion H.
      eapply F_with_parts_deep; [| eassumption]. now apply Dp.
    + destruct (executing_node fr) as [n|].
      * destruct n; try discriminate.
        destruct args as [|arg [|]]; try discriminate.
        destruct (_parts_from_node _ _ _ arg (Some s) fr) as [[ps|e] fr1]
          eqn:E; simpl; intro H; inversion H.
        eapply F_with_parts_deep; [| eassumption].
        eapply (decompose_deep arg Sound); [| exact E].
        intros s0 Z. now inversion Z; subst.
      * intro H; inversion H.
        eapply F_with_parts_deep; [| eassumption]. simpl. now rewrite Ds.
  - intros self other is_left fr r fr' Ds Do.
    assert (DL : deep_reconstructs (left_operand self other is_left) = true)
      by now destruct is_left.
    assert (DR : deep_reconstructs (right_operand self other is_left) = true)
      by now destruct is_left.
    destruct (addition_operands (executing_node fr)) as [[ln rn]|] eqn:A.
    + rewrite (add_precise unparse eval_source eval_code executing_node
                 self other is_left fr A).
      unfold bind, lift.
      destruct (decompose ln _ fr) as [[lp|e] fr1] eqn:L; [| discriminate].
      destruct (decompose rn _ fr1) as [[rp|e] fr2] eqn:R; [| discriminate].
      intro H; inversion H.
      eapply F_with_parts_deep; [| eassumption].
      apply forallb_deep_app.
      * eapply (decompose_deep ln Sound); [| exact L].
        intros s0 Z. now inversion Z; subst.
      * eapply (decompose_deep rn Sound); [| exact R].
        intros s0 Z. now inversion Z; subst.
    + rewrite (add_fallback unparse eval_source eval_code executing_node
                 self other is_left fr A).
      intro H; inversion H.
      eapply F_with_parts_deep; [| eassumption]. simpl.
      now rewrite DL, DR.
Qed.
End CallSiteMore.

(** ** The further properties at sample call sites *)

Lemma flatten_after_add_witness :
  is_F Sample2.hello_3 = true /\
  is_F Sample2.hello_3_bang = true /\
  flattened_operand Sample2.hello_3 = Ok [PStr (Str "hello 3")] /\
  flattened_operand Sample2.hello_3_bang
  = Ok [PStr (Str "hello 3"); PStr (Str "!")] /\
  exists r,
    _add Demo.unparse (Demo.eval_source Demo.no_values)
         (Demo.eval_code Demo.no_values) (fun _ => None)
         Sample2.hello_3 Sample2.hello_3_bang true 0 = (Ok r, 0) /\
    flatten r
    = Ok (FStr "hello 3hello 3!"
               [PStr (Str "hello 3"); PStr (Str "hello 3"); PStr (Str "!")]).
Proof.
  repeat (split; [reflexivity |]).
  apply (@flatten_after_add Demo.Frame Demo.unparse
           (Demo.eval_source Demo.no_values) (Demo.eval_code Demo.no_values)
           (fun _ => None) Sample2.hello_3 Sample2.hello_3_bang true 0
           [PStr (Str "hello 3")] [PStr (Str "hello 3"); PStr (Str "!")]);
    try reflexivity.
  left; reflexivity.
Defined.

Lemma new_from_plain_argument_witness :
  other_expression (Name "x") = true /\
  F_new Demo.unparse (Demo.eval_source Demo.no_values)
        (Demo.eval_code Demo.no_values)
        (fun _ => Some (Call (Name "F") [Name "x"])) (Str "abc") None 0
  = (Ok (FStr "abc" [PFValue "x" (VStr (Str "abc")) (Str "abc")]), 0, []).
Proof.
  split; [reflexivity |].
  destruct (@new_from_plain_argument Demo.Frame Demo.unparse
              (Demo.eval_source Demo.no_values)
              (Demo.eval_code Demo.no_values)
              (fun _ => Some (Call (Name "F") [Name "x"]))
              (Str "abc") 0 (Name "F") (Name "x") eq_refl) as [O _].
  now apply O.
Defined.

Lemma new_warnings_and_arity_witness :
  length (@nil node) <> 1 /\
  F_new Demo.unparse (Demo.eval_source Demo.no_values)
        (Demo.eval_code Demo.no_values)
        (fun _ => Some (Call (Name "F") [])) (Str "abc") None 0
  = (Raise ValueError, 0, []).
Proof.
  assert (L : length (@nil node) <> 1) by (simpl; discriminate).
  split; [exact L |].
  destruct (@new_warnings_and_arity Demo.Frame Demo.unparse
              (Demo.eval_source Demo.no_values)
              (Demo.eval_code Demo.no_values)
              (fun _ => Some (Call (Name "F") [])) (Str "abc") None 0)
    as [_ A].
  now apply (A (Name "F") []).
Defined.

Lemma add_plain_operands_witness :
  _add Demo.unparse (Demo.eval_source Demo.no_values)
       (Demo.eval_code Demo.no_values) (fun _ => Some Sample2.s_plus_s2)
       Sample2.hello_3 Sample2.hello_3_bang true 0
  = (Ok (FStr "hello 3hello 3!"
              [PFValue "s" (VStr Sample2.hello_3) Sample2.hello_3;
               PFValue "s2" (VStr Sample2.hello_3_bang)
                       Sample2.hello_3_bang]), 0).
Proof.
  apply (@add_plain_operands Demo.Frame Demo.unparse
           (Demo.eval_source Demo.no_values) (Demo.eval_code Demo.no_values)
           (fun _ => Some Sample2.s_plus_s2)
           Sample2.hello_3 Sample2.hello_3_bang true 0
           (Name "s") (Name "s2")); reflexivity.
Defined.

Lemma add_literal_operand_witness :
  other_expression (Call (Name "F") [Constant (CStr "world")]) = true /\
  _add Demo.unparse (Demo.eval_source Demo.no_values)
       (Demo.eval_code Demo.no_values)
       (fun _ => Some Sample2.hello_plus_F_world)
       Sample2.world (Str "hello ") false 0
  = (Ok (FStr "hello world"
              [PStr (Str "hello ");
               PFValue "F('world')" (VStr Sample2.world) Sample2.world]), 0).
Proof.
  split; [reflexivity |].
  destruct (@add_literal_operand Demo.Frame Demo.unparse
              (Demo.eval_source Demo.no_values)
              (Demo.eval_code Demo.no_values)
              (fun _ => Some Sample2.hello_plus_F_world)
              Sample2.world (Str "hello ") false 0 "hello "
              (Call (Name "F") [Constant (CStr "world")]) eq_refl)
    as [L _].
  destruct (L eq_refl) as [Y _]. now apply Y.
Defined.

Lemma decompose_joined_children_witness :
  forallb fstring_child
    [Constant (CStr "hello ");
     FormattedValue (BinOp (Constant (COther "1")) Add
                           (Constant (COther "2"))) (-1) None] = true /\
  length [PStr (Str "hello "); PFValue "1 + 2" (VOther "3") (Str "3")]
  = length
      [Constant (CStr "hello ");
       FormattedValue (BinOp (Constant (COther "1")) Add
                             (Constant (COther "2"))) (-1) None].
Proof.
  split; [reflexivity |].
  destruct (@decompose_joined_children Demo.Frame Demo.unparse
              (Demo.eval_source Demo.sum_values)
              (Demo.eval_code Demo.sum_values)
              [Constant (CStr "hello ");
               FormattedValue (BinOp (Constant (COther "1")) Add
                                     (Constant (COther "2"))) (-1) None]
              None 0) as [C _].
  apply (C eq_refl _ 2). reflexivity.
Defined.

Lemma sum_values_sound : sound_values (Demo.eval_source Demo.sum_values).
Proof.
  intros source fr v fr'. unfold Demo.eval_source, Demo.sum_values.
  destruct (String.eqb source "1 + 2"); intro H; inversion H; reflexivity.
Defined.

Lemma construction_keeps_deep_invariant_witness :
  sound_values (Demo.eval_source Demo.sum_values) /\
  deep_reconstructs
    (FStr "hello 3"
       [PStr (Str "hello "); PFValue "1 + 2" (VOther "3") (Str "3")]) = true.
Proof.
  split; [exact sum_values_sound |].
  destruct (@construction_keeps_deep_invariant Demo.Frame Demo.unparse
              (Demo.eval_source Demo.sum_values)
              (Demo.eval_code Demo.sum_values)
              (fun _ => Some (Call (Name "F") [Demo.hello_sum]))
              sum_values_sound) as [N _].
  apply (N (Str "hello 3") None 0 _ 2 []).
  - reflexivity.
  - discriminate.
  - reflexivity.
Defined.
